(** * Sentinel-RAG: the diff viewer, the SSE parser and the sandbox contract

    A shallow embedding of the TypeScript front end of Sentinel-RAG
    ([frontend/app/components/DiffViewer.tsx],
    [frontend/app/components/VscodeEditor.tsx] and [frontend/app/page.tsx])
    and, for the parts of the system whose code is written in the Python
    back end, of the contracts that the specification gives for them.

    Conventions of the embedding.
    - A JavaScript string is a [string]: one character per UTF-16 code
      unit, restricted to the code units below 256.  The code units that a
      JSON escape can produce beyond that range are kept as numbers, see
      [ustring].
    - A JavaScript number that counts lines is a [Z].  The counters of the
      source are doubles; they agree with [Z] on the safe integers, up to
      2^53 - 1 in absolute value, and what is proved of a number that is
      read from a hunk header is proved there (see Numbers).
    - [null] and [undefined] are [None] of an [option].
    - A [try]/[catch] is a value of [outcome]: [Ok] for normal completion
      and [Throw] for an exception on its way to the nearest handler.
    - A callback that the source calls for its effect only is recorded as
      one entry of a trace, in call order. *)

From Stdlib Require Import String Ascii List ZArith NArith Lia Bool Arith.
From Stdlib Require Decimal DecimalString DecimalNat.
Import ListNotations.

Open Scope list_scope.
Open Scope string_scope.

(** ** Characters and strings *)

(** The line feed, written ["\n"] in the source. *)
Definition LF : ascii := "010"%char.
Definition nl : string := String LF "".

(** The double quote. *)
Definition DQ : ascii := "034"%char.
Definition dq : string := String DQ "".

(** [dquote s] is [s] with every apostrophe turned into a double quote,
    to write a text that is full of double quotes legibly. *)
Fixpoint dquote (s : string) : string :=
  match s with
  | "" => ""
  | String c s' => String (if Ascii.eqb c "'"%char then DQ else c) (dquote s')
  end.

(** [text.startsWith(p)]. *)
Definition startsWith (text p : string) : bool := String.prefix p text.

(** [text.slice(n)] for [0 <= n]: the text without its first [n] code
    units, empty when there are fewer. *)
Fixpoint slice (n : nat) (text : string) : string :=
  match n, text with
  | O, _ => text
  | S _, "" => ""
  | S k, String _ t => slice k t
  end.

(** Put a character in front of the first string of a list. *)
Definition cons_head (c : ascii) (l : list string) : list string :=
  match l with
  | [] => [String c ""]
  | x :: xs => String c x :: xs
  end.

(** [text.split(sep)] for a separator that is not empty (both call sites
    pass a literal).  The text is scanned from the left; wherever the
    separator starts, the current piece ends and the scan resumes behind
    the separator.  [skip] counts the code units of a separator found
    earlier that are still to be passed over. *)
Fixpoint split_from (sep : string) (skip : nat) (text : string) : list string :=
  match text with
  | "" => [""]
  | String c t =>
      match skip with
      | S k => split_from sep k t
      | O =>
          if startsWith text sep
          then "" :: split_from sep (String.length sep - 1) t
          else cons_head c (split_from sep 0 t)
      end
  end.

Definition split (sep text : string) : list string := split_from sep 0 text.

(** [pieces.join(sep)]. *)
Definition join (sep : string) (pieces : list string) : string :=
  String.concat sep pieces.

(** [arr.pop()]: the last element, or [undefined] for an empty array,
    together with the array that is left. *)
Definition pop {A : Type} (arr : list A) : option A * list A :=
  match arr with
  | [] => (None, [])
  | x :: xs => (Some (last xs x), removelast arr)
  end.

(** The nullish coalescing operator [v ?? d]. *)
Definition nullish {A : Type} (v : option A) (d : A) : A :=
  match v with
  | Some a => a
  | None => d
  end.

(** [occurs sep text]: the separator occurs somewhere in the text. *)
Definition occurs (sep text : string) : Prop :=
  exists a b, text = a ++ sep ++ b.

(** [text.replace(pat, rep)] with a string pattern: the first occurrence
    only.  ([rep] is the empty string at the call site, so the dollar
    patterns of the replacement play no part.) *)
Fixpoint replace (pat rep text : string) : string :=
  if startsWith text pat then rep ++ slice (String.length pat) text
  else
    match text with
    | "" => ""
    | String c t => String c (replace pat rep t)
    end.

(** White space and line terminators among the code units below 256:
    tab, line feed, vertical tab, form feed, carriage return, space and
    the no-break space. *)
Definition is_js_space (c : ascii) : bool :=
  let n := nat_of_ascii c in
  ((9 <=? n) && (n <=? 13) || Nat.eqb n 32 || Nat.eqb n 160)%nat.

Fixpoint trimStart (text : string) : string :=
  match text with
  | "" => ""
  | String c t => if is_js_space c then trimStart t else text
  end.

Fixpoint trimEnd (text : string) : string :=
  match text with
  | "" => ""
  | String c t =>
      match trimEnd t with
      | "" => if is_js_space c then "" else String c ""
      | t' => String c t'
      end
  end.

(** [text.trim()]. *)
Definition trim (text : string) : string := trimEnd (trimStart text).

(** ** DiffViewer.tsx: the data *)

Inductive DiffType : Type := add | remove | context | hunk.

Record DiffLine : Type := mkDiffLine { type : DiffType; content : string }.

Definition DiffType_eqb (a b : DiffType) : bool :=
  match a, b with
  | add, add | remove, remove | context, context | hunk, hunk => true
  | _, _ => false
  end.

(** One element of the array that [computeLineNumbers] returns. *)
Record LineNumbers : Type :=
  mkLineNumbers { oldLine : option Z; newLine : option Z }.

(** ** DiffViewer.tsx: the hunk header

    [line.content.match(/@@ -(\d+)(?:,\d+)? \+(\d+)(?:,\d+)? @@/)].
    The expression is not anchored: the engine tries every start position
    from the left and returns the first match.  At one position the match
    is deterministic: [\d+] is greedy and whatever follows it in the
    expression is not a digit, so giving back a digit can never help, and
    the optional [,\d+] is followed by a space, so skipping a comma that
    is there can never help either. *)

Definition is_digit (c : ascii) : bool :=
  let n := nat_of_ascii c in (48 <=? n)%nat && (n <=? 57)%nat.

(** The longest run of digits at the head of a text, and the rest. *)
Fixpoint span_digits (text : string) : string * string :=
  match text with
  | "" => ("", "")
  | String c t =>
      if is_digit c
      then let (ds, rest) := span_digits t in (String c ds, rest)
      else ("", text)
  end.

(** [\d+]: at least one digit, as many as there are. *)
Definition digits1 (text : string) : option (string * string) :=
  match span_digits text with
  | ("", _) => None
  | (ds, rest) => Some (ds, rest)
  end.

(** A literal piece of the expression. *)
Fixpoint literal (lit text : string) : option string :=
  match lit, text with
  | "", _ => Some text
  | String _ _, "" => None
  | String a l, String b t => if Ascii.eqb a b then literal l t else None
  end.

(** [(?:,\d+)?]: a comma and digits if they are there, nothing otherwise. *)
Definition opt_count (text : string) : string :=
  match literal "," text with
  | Some t =>
      match digits1 t with
      | Some (_, rest) => rest
      | None => text
      end
  | None => text
  end.

(** The expression matched at the head of a text: the two groups. *)
Definition match_here (text : string) : option (string * string) :=
  match literal "@@ -" text with
  | None => None
  | Some t1 =>
      match digits1 t1 with
      | None => None
      | Some (g1, t2) =>
          match literal " +" (opt_count t2) with
          | None => None
          | Some t3 =>
              match digits1 t3 with
              | None => None
              | Some (g2, t4) =>
                  match literal " @@" (opt_count t4) with
                  | None => None
                  | Some _ => Some (g1, g2)
                  end
              end
          end
      end
  end.

(** [content.match(re)]: the groups of the leftmost match, or [null]. *)
Fixpoint hunk_match (text : string) : option (string * string) :=
  match match_here text with
  | Some groups => Some groups
  | None =>
      match text with
      | "" => None
      | String _ t => hunk_match t
      end
  end.

(** *** Numbers

    A JavaScript number is a double.  It holds every integer from
    [-(2^53 - 1)] to [2^53 - 1], the safe integers of
    [Number.isSafeInteger], exactly, and on them [parseInt], [- 1] and
    [++] are the operations on integers; past them [parseInt] rounds and
    [++] may leave a number as it is.  The numbers are integers here:
    what is proved of a number that is read from a header is proved
    where it is a safe integer.  A counter that starts at 0 counts the
    lines of an array, which has fewer than [2^32] of them. *)

Definition safe_integer (z : Z) : bool :=
  (Z.abs z <=? 9007199254740991)%Z.

(** [parseInt(ds, 10)] on a text of digits. *)
Definition digit_value (c : ascii) : Z := (Z.of_nat (nat_of_ascii c) - 48)%Z.

Fixpoint parseInt_acc (acc : Z) (ds : string) : Z :=
  match ds with
  | "" => acc
  | String c t => parseInt_acc (10 * acc + digit_value c)%Z t
  end.

Definition parseInt (ds : string) : Z := parseInt_acc 0 ds.

(** The start lines that a hunk header announces, when the content of
    the line has one. *)
Definition hunk_start (text : string) : option (Z * Z) :=
  match hunk_match text with
  | Some (g1, g2) => Some (parseInt g1, parseInt g2)
  | None => None
  end.

(** ** DiffViewer.tsx: [computeLineNumbers]

    The callback of [lines.map] reads and writes the two counters of the
    enclosing function; here they are the state that is passed from one
    line to the next.  The counters are integers, as said under
    Numbers. *)

Record Counters : Type := mkCounters { cOld : Z; cNew : Z }.

Definition number_line (st : Counters) (line : DiffLine)
  : Counters * LineNumbers :=
  match type line with
  | hunk =>
      let st' :=
        match hunk_match (content line) with
        | Some (g1, g2) => mkCounters (parseInt g1 - 1)%Z (parseInt g2 - 1)%Z
        | None => st
        end in
      (st', mkLineNumbers None None)
  | remove =>
      let o := (cOld st + 1)%Z in
      (mkCounters o (cNew st), mkLineNumbers (Some o) None)
  | add =>
      let n := (cNew st + 1)%Z in
      (mkCounters (cOld st) n, mkLineNumbers None (Some n))
  | context =>
      let o := (cOld st + 1)%Z in
      let n := (cNew st + 1)%Z in
      (mkCounters o n, mkLineNumbers (Some o) (Some n))
  end.

(** [lines.map(callback)] with the counters threaded through. *)
Fixpoint number_lines (st : Counters) (lines : list DiffLine)
  : list LineNumbers :=
  match lines with
  | [] => []
  | line :: rest =>
      let (st', r) := number_line st line in
      r :: number_lines st' rest
  end.

Definition computeLineNumbers (lines : list DiffLine) : list LineNumbers :=
  number_lines (mkCounters 0 0) lines.

(** ** DiffViewer.tsx: one column of [SplitDiffView]

    A column shows one row per element of [content.split("\n")], numbered
    [idx + 1], and below the rows a placeholder when the array is empty
    (["Empty file"] on the left, ["File deleted"] on the right). *)

Record Column : Type :=
  mkColumn { rows : list (Z * string); placeholder : bool }.

Fixpoint number_rows (idx : Z) (ls : list string) : list (Z * string) :=
  match ls with
  | [] => []
  | l :: rest => (idx + 1, l)%Z :: number_rows (idx + 1)%Z rest
  end.

Definition split_column (text : string) : Column :=
  let ls := split nl text in
  mkColumn (number_rows 0 ls) (Nat.eqb (List.length ls) 0).

(** ** page.tsx: the built-in test fixtures, [TEST_FILES]

    A template literal is written here as the list of its lines; every
    line of the three literals ends with a line feed. *)

Record TestFile : Type := mkTestFile { name : string; file_content : string }.

Definition template (ls : list string) : string :=
  String.concat "" (map (fun l => l ++ nl) ls).

Definition TEST_FILES : list (string * TestFile) :=
  [ ("s3", mkTestFile "s3_bucket.tf" (template
      [ dquote "resource 'aws_s3_bucket' 'data' {";
        dquote "  bucket = 'my-data-bucket'";
        "}";
        "";
        dquote "resource 'aws_s3_bucket_acl' 'data' {";
        "  bucket = aws_s3_bucket.data.id";
        dquote "  acl    = 'public-read'";
        "}";
        "";
        dquote "resource 'aws_s3_bucket_public_access_block' 'data' {";
        "  bucket = aws_s3_bucket.data.id";
        "  block_public_acls       = false";
        "  block_public_policy     = false";
        "  ignore_public_acls      = false";
        "  restrict_public_buckets = false";
        "}" ]));
    ("sg", mkTestFile "security_group.tf" (template
      [ dquote "resource 'aws_security_group' 'web' {";
        dquote "  name        = 'web-sg'";
        dquote "  description = 'Allow web traffic'";
        "  vpc_id      = var.vpc_id";
        "";
        "  ingress {";
        dquote "    description = 'SSH from anywhere'";
        "    from_port   = 22";
        "    to_port     = 22";
        dquote "    protocol    = 'tcp'";
        dquote "    cidr_blocks = ['0.0.0.0/0']";
        "  }";
        "";
        "  egress {";
        "    from_port   = 0";
        "    to_port     = 0";
        dquote "    protocol    = '-1'";
        dquote "    cidr_blocks = ['0.0.0.0/0']";
        "  }";
        "}" ]));
    ("rds", mkTestFile "rds.tf" (template
      [ dquote "resource 'aws_db_instance' 'main' {";
        dquote "  identifier           = 'main-db'";
        "  allocated_storage    = 20";
        dquote "  engine               = 'mysql'";
        dquote "  engine_version       = '8.0'";
        dquote "  instance_class       = 'db.t3.micro'";
        dquote "  db_name              = 'mydb'";
        dquote "  username             = 'admin'";
        dquote "  password             = 'password123'";
        "  skip_final_snapshot  = true";
        "  publicly_accessible  = true";
        "  storage_encrypted    = false";
        "}" ])) ].

(** The fixture with a given file name. *)
Definition fixture_named (n : string) : option TestFile :=
  match find (fun kv => String.eqb (name (snd kv)) n) TEST_FILES with
  | Some kv => Some (snd kv)
  | None => None
  end.

(** *** Reading a Terraform text

    What the scenarios of the specification say about a fixture is said
    about its attribute assignments, [key = value] on a line of its own
    with any amount of blank space around the three words, and about the
    block that an opening line [name {] starts. *)

(** The words of a line: the maximal runs of characters other than the
    space. *)
Fixpoint words_from (cur : string) (text : string) : list string :=
  match text with
  | "" => match cur with "" => [] | _ => [cur] end
  | String c t =>
      if Ascii.eqb c " "%char
      then match cur with
           | "" => words_from "" t
           | _ => cur :: words_from "" t
           end
      else words_from (cur ++ String c "") t
  end.

Definition words (line : string) : list string := words_from "" line.

Fixpoint strings_eqb (a b : list string) : bool :=
  match a, b with
  | [], [] => true
  | x :: a', y :: b' => String.eqb x y && strings_eqb a' b'
  | _, _ => false
  end.

(** The line assigns [value] to the attribute [key]. *)
Definition assigns (key value line : string) : bool :=
  strings_eqb (words line) [key; "="; value].

Definition has_assignment (key value : string) (ls : list string) : bool :=
  existsb (assigns key value) ls.

(** The lines up to the first line that consists of a closing brace. *)
Fixpoint until_close (ls : list string) : list string :=
  match ls with
  | [] => []
  | l :: rest =>
      if strings_eqb (words l) ["}"] then [] else l :: until_close rest
  end.

(** The body of the first block that a line [block {] opens. *)
Fixpoint block_body (block : string) (ls : list string) : option (list string) :=
  match ls with
  | [] => None
  | l :: rest =>
      if strings_eqb (words l) [block; "{"]
      then Some (until_close rest)
      else block_body block rest
  end.

(** A text between double quotes, not empty: a literal in the file. *)
Definition is_quoted_literal (w : string) : bool :=
  match w with
  | String c t =>
      Ascii.eqb c DQ && (2 <=? String.length t)%nat
      && String.eqb (slice (String.length t - 1) t) dq
  | "" => false
  end.

(** Some line assigns a quoted literal to the attribute [key]. *)
Definition has_literal_assignment (key : string) (ls : list string) : bool :=
  existsb (fun l =>
             match words l with
             | [k; e; v] =>
                 String.eqb k key && String.eqb e "=" && is_quoted_literal v
             | _ => false
             end) ls.

(** ** JSON values

    What [JSON.parse] returns.  The text of a JSON string may hold
    [\uXXXX] escapes, so the strings of a value are lists of code units.
    A number is kept as the exact decimal [mantissa * 10 ^ exponent] that
    its text denotes.  The members of an object are kept in the order of
    the text; reading a property takes the last member with that name, as
    the parser overwrites a name that comes twice. *)

Definition ustring : Type := list N.

Definition codes (s : string) : ustring :=
  map N_of_ascii (list_ascii_of_string s).

#[warnings="-register-all"]
Inductive json : Type :=
| JNull
| JBool (b : bool)
| JNumber (mantissa exponent : Z)
| JString (s : ustring)
| JArray (elems : list json)
| JObject (members : list (ustring * json)).

Inductive exn : Type := SyntaxError | TypeError.

Inductive outcome (A : Type) : Type :=
| Ok (a : A)
| Throw (e : exn).

Arguments Ok {A} a.
Arguments Throw {A} e.

Definition bind {A B : Type} (m : outcome A) (k : A -> outcome B) : outcome B :=
  match m with
  | Ok a => k a
  | Throw e => Throw e
  end.

Notation "x <- m ;; k" := (bind m (fun x => k))
  (at level 61, m at next level, right associativity).

Fixpoint ustring_eqb (a b : ustring) : bool :=
  match a, b with
  | [], [] => true
  | x :: a', y :: b' => N.eqb x y && ustring_eqb a' b'
  | _, _ => false
  end.

Fixpoint lookup_last (key : ustring) (members : list (ustring * json))
  : option json :=
  match members with
  | [] => None
  | (k, v) :: rest =>
      match lookup_last key rest with
      | Some w => Some w
      | None => if ustring_eqb k key then Some v else None
      end
  end.

(** [v.key] for a value that came out of [JSON.parse] and one of the
    property names that the source reads ([message], [operation_type],
    [file_path], [diff_lines], [old_content], [new_content], [type],
    [content], [name], [arguments], [call_id], [output], [summary]); none of
    them is a property of the prototypes of objects, arrays, strings,
    numbers or booleans.  Reading a property of [null] throws. *)
Definition get_prop (v : json) (key : string) : outcome (option json) :=
  match v with
  | JNull => Throw TypeError
  | JObject members => Ok (lookup_last (codes key) members)
  | _ => Ok None
  end.

(** The double nearest to [m * 10 ^ e] is zero: [m] is zero, or the
    magnitude is at most 2^-1075, half of the least positive double. *)
Definition rounds_to_zero (m e : Z) : bool :=
  (if e <? 0 then Z.abs m * 2 ^ 1075 <=? 10 ^ (- e) else m =? 0)%Z.

(** [ToBoolean]: what [if], [&&] and [||] test. *)
Definition truthy (v : json) : bool :=
  match v with
  | JNull => false
  | JBool b => b
  | JNumber m e => negb (rounds_to_zero m e)
  | JString s => match s with [] => false | _ => true end
  | JArray _ | JObject _ => true
  end.

(** [typeof v === "string"] and [Array.isArray(v)], for a value that may
    be [undefined]. *)
Definition is_string (v : option json) : bool :=
  match v with Some (JString _) => true | _ => false end.

Definition is_array (v : option json) : bool :=
  match v with Some (JArray _) => true | _ => false end.

(** [v || d] for a default that is not [undefined]. *)
Definition or_default (v : option json) (d : json) : json :=
  match v with
  | Some w => if truthy w then w else d
  | None => d
  end.

(** [v || undefined]. *)
Definition or_undefined (v : option json) : option json :=
  match v with
  | Some w => if truthy w then Some w else None
  | None => None
  end.

(** ** A reference [JSON.parse]

    The functions of the front end below take [JSON.parse] as a parameter
    and their properties hold for every parser.  This one follows the JSON
    grammar of ECMA-404 and serves to run the front end on concrete
    texts.  Every call of the three mutually recursive functions consumes
    a character, or is followed by one that does, so twice the length of
    the text is fuel enough. *)

Definition is_json_space (c : ascii) : bool :=
  let n := nat_of_ascii c in
  Nat.eqb n 9 || Nat.eqb n 10 || Nat.eqb n 13 || Nat.eqb n 32.

Fixpoint skip_space (text : string) : string :=
  match text with
  | "" => ""
  | String c t => if is_json_space c then skip_space t else text
  end.

Definition hex_value (c : ascii) : option N :=
  let n := N_of_ascii c in
  if (48 <=? n)%N && (n <=? 57)%N then Some (n - 48)%N
  else if (65 <=? n)%N && (n <=? 70)%N then Some (n - 55)%N
  else if (97 <=? n)%N && (n <=? 102)%N then Some (n - 87)%N
  else None.

Definition hex4 (a b c d : ascii) : option N :=
  match hex_value a, hex_value b, hex_value c, hex_value d with
  | Some x, Some y, Some z, Some w => Some (((x * 16 + y) * 16 + z) * 16 + w)%N
  | _, _, _, _ => None
  end.

(** The code unit of a one-letter escape: quote, backslash, slash,
    b, f, n, r and t. *)
Definition escape_value (c : ascii) : option N :=
  let n := nat_of_ascii c in
  if Nat.eqb n 34 then Some 34%N
  else if Nat.eqb n 92 then Some 92%N
  else if Nat.eqb n 47 then Some 47%N
  else if Nat.eqb n 98 then Some 8%N
  else if Nat.eqb n 102 then Some 12%N
  else if Nat.eqb n 110 then Some 10%N
  else if Nat.eqb n 114 then Some 13%N
  else if Nat.eqb n 116 then Some 9%N
  else None.

(** The rest of a string literal, behind its opening quote. *)
Fixpoint parse_string (text : string) : option (ustring * string) :=
  match text with
  | "" => None
  | String c t =>
      if Ascii.eqb c DQ then Some ([], t)
      else if Ascii.eqb c "\"%char then
        match t with
        | String "u"%char (String h1 (String h2 (String h3 (String h4 t')))) =>
            match hex4 h1 h2 h3 h4, parse_string t' with
            | Some u, Some (us, rest) => Some (u :: us, rest)
            | _, _ => None
            end
        | String e t' =>
            match escape_value e, parse_string t' with
            | Some u, Some (us, rest) => Some (u :: us, rest)
            | _, _ => None
            end
        | "" => None
        end
      else if (nat_of_ascii c <? 32)%nat then None
      else
        match parse_string t with
        | Some (us, rest) => Some (N_of_ascii c :: us, rest)
        | None => None
        end
  end.

(** A number: an optional minus sign; a zero, or a digit other than
    zero and any digits; optionally a point and digits; optionally [e] or
    [E], a sign and digits. *)
Definition parse_number (text : string) : option (json * string) :=
  let (negative, t0) :=
    match text with
    | String "-"%char t => (true, t)
    | _ => (false, text)
    end in
  match digits1 t0 with
  | None => None
  | Some (int, t1) =>
      if startsWith int "0" && (1 <? String.length int)%nat then None
      else
        let frac_part :=
          match t1 with
          | String "."%char t =>
              match digits1 t with
              | Some (frac, t2) => Some (frac, t2)
              | None => None
              end
          | _ => Some ("", t1)
          end in
        match frac_part with
        | None => None
        | Some (frac, t2) =>
            let exp_part :=
              match t2 with
              | String c t =>
                  if Ascii.eqb c "e"%char || Ascii.eqb c "E"%char then
                    let (sign, t') :=
                      match t with
                      | String "-"%char u => ((-1)%Z, u)
                      | String "+"%char u => (1%Z, u)
                      | _ => (1%Z, t)
                      end in
                    match digits1 t' with
                    | Some (ds, t3) => Some ((sign * parseInt ds)%Z, t3)
                    | None => None
                    end
                  else Some (0%Z, t2)
              | "" => Some (0%Z, t2)
              end in
            match exp_part with
            | None => None
            | Some (e, t3) =>
                let m := parseInt (int ++ frac) in
                Some (JNumber (if negative then (- m)%Z else m)
                              (e - Z.of_nat (String.length frac))%Z, t3)
            end
        end
  end.

Fixpoint parse_value (fuel : nat) (text : string) {struct fuel}
  : option (json * string) :=
  match fuel with
  | O => None
  | S fuel' =>
      match skip_space text with
      | "" => None
      | String c t =>
          if Ascii.eqb c "n"%char then
            match literal "ull" t with Some r => Some (JNull, r) | None => None end
          else if Ascii.eqb c "t"%char then
            match literal "rue" t with Some r => Some (JBool true, r) | None => None end
          else if Ascii.eqb c "f"%char then
            match literal "alse" t with Some r => Some (JBool false, r) | None => None end
          else if Ascii.eqb c DQ then
            match parse_string t with
            | Some (us, r) => Some (JString us, r)
            | None => None
            end
          else if Ascii.eqb c "["%char then
            match skip_space t with
            | String "]"%char r => Some (JArray [], r)
            | _ =>
                match parse_elements fuel' t with
                | Some (vs, r) => Some (JArray vs, r)
                | None => None
                end
            end
          else if Ascii.eqb c "{"%char then
            match skip_space t with
            | String "}"%char r => Some (JObject [], r)
            | _ =>
                match parse_members fuel' t with
                | Some (ms, r) => Some (JObject ms, r)
                | None => None
                end
            end
          else parse_number (String c t)
      end
  end

with parse_elements (fuel : nat) (text : string) {struct fuel}
  : option (list json * string) :=
  match fuel with
  | O => None
  | S fuel' =>
      match parse_value fuel' text with
      | None => None
      | Some (v, t) =>
          match skip_space t with
          | String "]"%char r => Some ([v], r)
          | String ","%char r =>
              match parse_elements fuel' r with
              | Some (vs, r') => Some (v :: vs, r')
              | None => None
              end
          | _ => None
          end
      end
  end

with parse_members (fuel : nat) (text : string) {struct fuel}
  : option (list (ustring * json) * string) :=
  match fuel with
  | O => None
  | S fuel' =>
      match skip_space text with
      | String c t =>
          if Ascii.eqb c DQ then
            match parse_string t with
            | None => None
            | Some (key, t1) =>
                match skip_space t1 with
                | String ":"%char t2 =>
                    match parse_value fuel' t2 with
                    | None => None
                    | Some (v, t3) =>
                        match skip_space t3 with
                        | String "}"%char r => Some ([(key, v)], r)
                        | String ","%char r =>
                            match parse_members fuel' r with
                            | Some (ms, r') => Some ((key, v) :: ms, r')
                            | None => None
                            end
                        | _ => None
                        end
                    end
                | _ => None
                end
            end
          else None
      | "" => None
      end
  end.

Definition reference_parse (text : string) : outcome json :=
  match parse_value (2 * String.length text + 2) text with
  | Some (v, rest) =>
      match skip_space rest with
      | "" => Ok v
      | _ => Throw SyntaxError
      end
  | None => Throw SyntaxError
  end.

(** ** The functions that call [JSON.parse] *)

(** The text that [onToolOutput] receives: the string [payload.output]
    itself, or [JSON.stringify(payload.output, null, 2)], which is left
    unevaluated. *)
Inductive OutputText : Type :=
| AsIs (s : ustring)
| Stringified (v : option json).

(** One call of a handler of [parseSseEvents], with its argument.  The
    handlers are taken to return normally, as the ones that [page.tsx]
    passes do. *)
Inductive HandlerCall : Type :=
| onText (text : string)
| onToolCall (tool_name args : json) (callId : option json)
| onToolOutput (output : OutputText) (callId : option json)
| onReasoning (summary : json)
| onDone (payload : option json).

Section WithJSON.

(** [JSON.parse]: the value, or the [SyntaxError] that it throws. *)
Variable JSON_parse : string -> outcome json.

(** *** DiffViewer.tsx: [isDiffData] *)

(** The [try] block: [Ok (Some parsed)] when the [return] in it is
    reached, [Ok None] when the block ends without it. *)
Definition isDiffData_try (output : string) : outcome (option json) :=
  parsed <- JSON_parse output ;;
  if truthy parsed then
    m <- get_prop parsed "message" ;;
    if is_string m then
      o <- get_prop parsed "operation_type" ;;
      if is_string o then
        f <- get_prop parsed "file_path" ;;
        if is_string f then
          d <- get_prop parsed "diff_lines" ;;
          if is_array d then Ok (Some parsed) else Ok None
        else Ok None
      else Ok None
    else Ok None
  else Ok None.

(** The whole function: the [catch] clause is empty and control falls
    through to [return null]. *)
Definition isDiffData (output : string) : outcome (option json) :=
  match isDiffData_try output with
  | Ok (Some parsed) => Ok (Some parsed)
  | Ok None => Ok None
  | Throw _ => Ok None
  end.

(** *** page.tsx: [parseSseEvents] *)

(** The body of the loop over the lines of one event. *)
Definition scan_line (st : string * list string) (line : string)
  : string * list string :=
  let (eventName, dataLines) := st in
  if startsWith line "event:" then
    (trim (replace "event:" "" line), dataLines)
  else if startsWith line "data:" then
    (eventName, (dataLines ++ [slice 5 line])%list)
  else st.

Definition scan_lines (lines : list string) : string * list string :=
  fold_left scan_line lines ("message", []).

(** The handler calls of one event with data, by the name of the
    event.  Each [try] has a [catch] that swallows the exception; the
    one of [done] calls [onDone()] instead. *)
Definition dispatch (eventName data : string) : list HandlerCall :=
  if String.eqb eventName "done" then
    match JSON_parse data with
    | Ok v => [onDone (Some v)]
    | Throw _ => [onDone None]
    end
  else if String.eqb eventName "tool_called" then
    match
      payload <- JSON_parse data ;;
      n <- get_prop payload "name" ;;
      a <- get_prop payload "arguments" ;;
      c <- get_prop payload "call_id" ;;
      Ok (onToolCall (or_default n (JString (codes "tool")))
                     (or_default a (JString []))
                     (or_undefined c))
    with
    | Ok call => [call]
    | Throw _ => []
    end
  else if String.eqb eventName "tool_output" then
    match
      payload <- JSON_parse data ;;
      o <- get_prop payload "output" ;;
      let output :=
        match o with
        | Some (JString s) => AsIs s
        | _ => Stringified o
        end in
      c <- get_prop payload "call_id" ;;
      Ok (onToolOutput output (or_undefined c))
    with
    | Ok call => [call]
    | Throw _ => []
    end
  else if String.eqb eventName "reasoning" then
    match
      payload <- JSON_parse data ;;
      s <- get_prop payload "summary" ;;
      match s with
      | Some v => if truthy v then Ok [onReasoning v] else Ok []
      | None => Ok []
      end
    with
    | Ok calls => calls
    | Throw _ => []
    end
  else [onText data].

(** The body of the loop over the events. *)
Definition handle_part (part : string) : list HandlerCall :=
  let (eventName, dataLines) := scan_lines (split nl part) in
  match dataLines with
  | [] => []
  | _ => dispatch eventName (join nl dataLines)
  end.

(** The calls of the handlers in order, and the value returned. *)
Definition parseSseEvents (buffer : string) : list HandlerCall * string :=
  let parts := split (nl ++ nl) buffer in
  let (popped, parts') := pop parts in
  let remaining := nullish popped "" in
  (fold_left (fun calls part => (calls ++ handle_part part)%list) parts' [],
   remaining).

End WithJSON.

(** ** Notions used to state the properties *)

(** [first_at sep a text b]: the leftmost occurrence of the separator in
    the text is the one between [a] and [b]. *)
Definition first_at (sep a text b : string) : Prop :=
  text = a ++ sep ++ b /\
  forall a' b', text = a' ++ sep ++ b' ->
                (String.length a <= String.length a')%nat.

(** The delimiter of two events in the stream: two line feeds. *)
Definition blank_line : string := nl ++ nl.

(** A line of the old file: a [remove] or a [context] line.  A line of
    the new file: an [add] or a [context] line. *)
Definition in_old (line : DiffLine) : bool :=
  match type line with
  | remove | context => true
  | add | hunk => false
  end.

Definition in_new (line : DiffLine) : bool :=
  match type line with
  | add | context => true
  | remove | hunk => false
  end.

Definition is_hunk (line : DiffLine) : bool := DiffType_eqb (type line) hunk.

(** The number of lines of the old file, of the new file, in a listing. *)
Definition count_old (lines : list DiffLine) : Z :=
  Z.of_nat (List.length (filter in_old lines)).

Definition count_new (lines : list DiffLine) : Z :=
  Z.of_nat (List.length (filter in_new lines)).

(** A hunk line whose content has no header in it. *)
Definition headerless (line : DiffLine) : bool :=
  is_hunk line &&
  match hunk_match (content line) with Some _ => false | None => true end.

(** The counters after a run of lines. *)
Definition run_counters (st : Counters) (lines : list DiffLine) : Counters :=
  fold_left (fun s line => fst (number_line s line)) lines st.

(** A line that leaves the counter of the old file alone: an [add] line,
    or a hunk line without a header.  Likewise for the new file. *)
Definition keeps_old (line : DiffLine) : bool :=
  match type line with
  | add => true
  | hunk => headerless line
  | remove | context => false
  end.

Definition keeps_new (line : DiffLine) : bool :=
  match type line with
  | remove => true
  | hunk => headerless line
  | add | context => false
  end.

(** The value has a property [key] that is a string, that is an array. *)
Definition has_string_field (v : json) (key : string) : bool :=
  match get_prop v key with
  | Ok o => is_string o
  | Throw _ => false
  end.

Definition has_array_field (v : json) (key : string) : bool :=
  match get_prop v key with
  | Ok o => is_array o
  | Throw _ => false
  end.

(** What [isDiffData] checks of a parsed value. *)
Definition checked_result (v : json) : bool :=
  has_string_field v "message" && has_string_field v "operation_type" &&
  has_string_field v "file_path" && has_array_field v "diff_lines".

(** An element of [diff_lines] as the tool contract has it: an object
    with a [type] among the four names and a string [content]. *)
Definition is_diff_line (v : json) : bool :=
  match get_prop v "type" with
  | Ok (Some (JString t)) =>
      existsb (ustring_eqb t) (map codes ["add"; "remove"; "context"; "hunk"])
      && has_string_field v "content"
  | _ => false
  end.

(** The complete result of [apply_patch] as the tool contract has it. *)
Definition complete_result (v : json) : bool :=
  has_string_field v "message" && has_string_field v "operation_type" &&
  has_string_field v "file_path" && has_string_field v "old_content" &&
  has_string_field v "new_content" &&
  match get_prop v "diff_lines" with
  | Ok (Some (JArray elems)) => forallb is_diff_line elems
  | _ => false
  end.

(** * The sandbox core of the back end

    The Python back end holds the components that the specification
    calls PathGuard, FileStore and PatchEngine.  They are modelled here
    from their contracts in the specification. *)

(** ** The file system *)

(** An absolute path: its segments from the root of the file system. *)
Definition Path : Type := list string.

Inductive Node : Type :=
| File (text : string)
| Dir
| Link (absolute : bool) (target : Path).

Definition FS : Type := Path -> option Node.

Fixpoint path_eqb (p q : Path) : bool :=
  match p, q with
  | [], [] => true
  | x :: p', y :: q' => String.eqb x y && path_eqb p' q'
  | _, _ => false
  end.

(** [is_prefix p q]: [q] is [p] or lies below it. *)
Fixpoint is_prefix (p q : Path) : bool :=
  match p, q with
  | [], _ => true
  | x :: p', y :: q' => String.eqb x y && is_prefix p' q'
  | _ :: _, [] => false
  end.

(** [descendant root p]: [p] lies below [root] and is not [root]. *)
Definition descendant (root p : Path) : bool :=
  is_prefix root p && negb (path_eqb root p).

Definition present (fs : FS) (p : Path) : bool :=
  match fs p with Some _ => true | None => false end.

(** The file system with the entry of one path replaced. *)
Definition set_node (fs : FS) (p : Path) (n : option Node) : FS :=
  fun q => if path_eqb q p then n else fs q.

(** The text of the regular file at a path, if there is one. *)
Definition file_at (fs : FS) (p : Path) : option string :=
  match fs p with
  | Some (File text) => Some text
  | _ => None
  end.

Inductive Error : Type :=
| PathEscape
| NotFound
| NotAFile
| PreconditionFailed
| FilesystemError.

Inductive Result (A : Type) : Type :=
| Success (a : A)
| Failure (e : Error).

Arguments Success {A} a.
Arguments Failure {A} e.

Module PathGuard.

(** Modelled from the spec: the canonicalization that [resolve] is to
    perform, "resolving [.]/[..] segments and symlinks before the
    containment check".  [resolved] is the canonical path so far and
    [todo] the segments still to be walked; a link met on the way is
    replaced by its target, from the root when the target is absolute
    and from the directory of the link otherwise.  [limit] bounds the
    number of steps, as a system bounds the links it follows; a walk
    that exceeds it has no result. *)
Fixpoint canonicalize (limit : nat) (fs : FS) (resolved todo : Path)
  : option Path :=
  match todo with
  | [] => Some resolved
  | seg :: rest =>
      match limit with
      | O => None
      | S limit' =>
          if String.eqb seg "" || String.eqb seg "." then
            canonicalize limit' fs resolved rest
          else if String.eqb seg ".." then
            canonicalize limit' fs (removelast resolved) rest
          else
            match fs (resolved ++ [seg])%list with
            | Some (Link true target) =>
                canonicalize limit' fs [] (target ++ rest)%list
            | Some (Link false target) =>
                canonicalize limit' fs resolved (target ++ rest)%list
            | _ => canonicalize limit' fs (resolved ++ [seg])%list rest
            end
      end
  end.

(** Modelled from the spec: [resolve(root, requestedPath)], which
    "fails with [PathEscape] if the canonicalized result is not a
    descendant of [root], or if [requestedPath] is empty/absolute when
    a relative path is required".  A walk without a result fails in
    the same way. *)
Definition resolve (limit : nat) (fs : FS) (root : Path)
           (requestedPath : string) : Result Path :=
  if String.eqb requestedPath "" || startsWith requestedPath "/" then
    Failure PathEscape
  else
    match canonicalize limit fs [] (root ++ split "/" requestedPath)%list with
    | Some p => if descendant root p then Success p else Failure PathEscape
    | None => Failure PathEscape
    end.

End PathGuard.

(** The moment at which the file system refuses an operation. *)
Inductive Fault : Type :=
| no_fault
| mkdir_fails
| create_temp_fails
| write_temp_fails (written : nat)
| rename_fails
| remove_fails.

Module FileStore.

(** The settings of a store: the step limit of PathGuard and the name
    that the next temporary file gets. *)
Record Env : Type := mkEnv { limit : nat; temp_name : string }.

(** The directory entry next to [p] with the given name. *)
Definition sibling (p : Path) (entry : string) : Path :=
  (removelast p ++ [entry])%list.

(** Modelled from the spec: [write] "creates parent directories as
    needed": the missing directories between the root and [p]. *)
Definition mkdirs (fs : FS) (root p : Path) : FS :=
  fun q =>
    if descendant root q && is_prefix q p && negb (path_eqb q p)
       && negb (present fs q)
    then Some Dir else fs q.

(** Modelled from the spec: [read(path)], which "fails with [NotFound]
    if absent, [NotAFile] if a directory". *)
Definition read (env : Env) (fs : FS) (root : Path) (path : string)
  : Result string :=
  match PathGuard.resolve (limit env) fs root path with
  | Failure e => Failure e
  | Success p =>
      match fs p with
      | Some (File text) => Success text
      | Some _ => Failure NotAFile
      | None => Failure NotFound
      end
  end.

(** Modelled from the spec: [write(path, content)], which "writes via
    a scoped temporary-file-then-atomic-rename sequence" and removes
    the temporary file on error.  The temporary file is created next
    to the target and only if its name is free.  The result comes with
    the file system that the call leaves behind. *)
Definition write (env : Env) (fault : Fault) (fs : FS) (root : Path)
           (path text : string) : Result unit * FS :=
  match PathGuard.resolve (limit env) fs root path with
  | Failure e => (Failure e, fs)
  | Success p =>
      match fault with
      | mkdir_fails => (Failure FilesystemError, fs)
      | _ =>
          let fs1 := mkdirs fs root p in
          let tmp := sibling p (temp_name env) in
          match fault with
          | create_temp_fails => (Failure FilesystemError, fs1)
          | _ =>
          if present fs1 tmp then (Failure FilesystemError, fs1) else
          match fault with
          | write_temp_fails written =>
              let partial := set_node fs1 tmp
                               (Some (File (substring 0 written text))) in
              (Failure FilesystemError, set_node partial tmp None)
          | rename_fails =>
              let complete := set_node fs1 tmp (Some (File text)) in
              (Failure FilesystemError, set_node complete tmp None)
          | _ =>
              let complete := set_node fs1 tmp (Some (File text)) in
              (Success tt,
               set_node (set_node complete tmp None) p (Some (File text)))
          end
          end
      end
  end.

(** Modelled from the spec: [remove(path)], which "fails with
    [NotFound] if absent". *)
Definition remove (env : Env) (fault : Fault) (fs : FS) (root : Path)
           (path : string) : Result unit * FS :=
  match PathGuard.resolve (limit env) fs root path with
  | Failure e => (Failure e, fs)
  | Success p =>
      if present fs p then
        match fault with
        | remove_fails => (Failure FilesystemError, fs)
        | _ => (Success tt, set_node fs p None)
        end
      else (Failure NotFound, fs)
  end.

End FileStore.

Module PatchEngine.

Inductive Kind : Type := create_file | update_file | delete_file.

(** A PatchOperation: the kind, the target and the new content, which
    a [delete_file] has not. *)
Record Operation : Type :=
  mkOperation { kind : Kind; path : string; new_text : option string }.

(** The structured result of [apply_patch]. *)
Record PatchResult : Type :=
  mkPatchResult {
      message : string;
      operation_type : Kind;
      file_path : string;
      diff_lines : list DiffLine;
      old_content : string;
      new_content : string }.

(** *** The diff *)

(** Modelled from the spec: the "line-oriented comparison of old vs.
    new content (longest-common-subsequence-based or equivalent
    minimal-edit-script algorithm)" with equal lines as [context],
    insertions as [add] and deletions as [remove].  Two equal first
    lines are common; otherwise the shorter of the two scripts that
    delete the first old line or insert the first new line is taken. *)
Fixpoint edit_script (old : list string) : list string -> list DiffLine :=
  match old with
  | [] => fun new => map (mkDiffLine add) new
  | x :: xs =>
      fix against (new : list string) : list DiffLine :=
        match new with
        | [] => map (mkDiffLine remove) old
        | y :: ys =>
            if String.eqb x y then mkDiffLine context x :: edit_script xs ys
            else
              let deleting := mkDiffLine remove x :: edit_script xs new in
              let inserting := mkDiffLine add y :: against ys in
              if (List.length deleting <=? List.length inserting)%nat
              then deleting else inserting
        end
  end.

Definition is_change (line : DiffLine) : bool :=
  match type line with
  | add | remove => true
  | context | hunk => false
  end.

(** For every line, whether at most [window] lines separate it from
    the last change before it; [since] counts the lines since that
    change. *)
Fixpoint near_before (window : nat) (since : option nat)
         (script : list DiffLine) : list bool :=
  match script with
  | [] => []
  | line :: rest =>
      if is_change line then true :: near_before window (Some 0%nat) rest
      else
        match since with
        | Some k =>
            (S k <=? window)%nat :: near_before window (Some (S k)) rest
        | None => false :: near_before window None rest
        end
  end.

(** The same towards the next change behind the line. *)
Definition near_after (window : nat) (script : list DiffLine) : list bool :=
  List.rev (near_before window None (List.rev script)).

Fixpoint either (a b : list bool) : list bool :=
  match a, b with
  | x :: a', y :: b' => (x || y) :: either a' b'
  | _, _ => []
  end.

(** Modelled from the spec: the lines that stay when "the
    unchanged-context run exceeds a configurable window around a
    change": those within the window of a change.  A script without a
    change has no window to exceed and stays whole. *)
Definition within_window (window : nat) (script : list DiffLine)
  : list bool :=
  if existsb is_change script
  then either (near_before window None script) (near_after window script)
  else map (fun _ => true) script.

Definition stays (flagged : bool * DiffLine) : bool :=
  fst flagged || negb (DiffType_eqb (type (snd flagged)) context).

(** The lines up to the next collapsed one. *)
Fixpoint listed (items : list (bool * DiffLine)) : list DiffLine :=
  match items with
  | [] => []
  | item :: rest => if stays item then snd item :: listed rest else []
  end.

Definition decimal (n : nat) : string :=
  DecimalString.NilEmpty.string_of_uint (Nat.to_uint n).

(** Modelled from the spec: "the conventional
    [@@ -oldStart,oldCount +newStart,newCount @@] header". *)
Definition header (oldStart oldCount newStart newCount : nat) : string :=
  "@@ -" ++ decimal oldStart ++ "," ++ decimal oldCount ++
  " +" ++ decimal newStart ++ "," ++ decimal newCount ++ " @@".

(** The marker in front of the lines that are listed next, when [o]
    lines of the old and [n] lines of the new content came before. *)
Definition marker (o n : nat) (next : list DiffLine) : DiffLine :=
  mkDiffLine hunk
    (header (o + 1) (List.length (filter in_old next))
            (n + 1) (List.length (filter in_new next))).

Definition advance (count : nat) (b : bool) : nat :=
  if b then S count else count.

(** Modelled from the spec: "collapse the middle into a single
    hunk-marker line": a run of context lines outside the window gives
    way to one marker in front of the lines that are listed next, which
    announces where the listing goes on; a run with no line listed
    behind it leaves nothing.  [collapsing] tells that the line before
    was collapsed. *)
Fixpoint collapse (o n : nat) (collapsing : bool)
         (items : list (bool * DiffLine)) : list DiffLine :=
  match items with
  | [] => []
  | item :: rest =>
      let o' := advance o (in_old (snd item)) in
      let n' := advance n (in_new (snd item)) in
      if stays item then
        ((if collapsing then [marker o n (listed items)] else [])
           ++ snd item :: collapse o' n' false rest)%list
      else collapse o' n' true rest
  end.

(** Modelled from the spec: step 5 of the patch engine, the diff of
    two contents for a window. *)
Definition diff (window : nat) (old new : string) : list DiffLine :=
  let script := edit_script (split nl old) (split nl new) in
  collapse 0 0 false (combine (within_window window script) script).

(** *** The state machine over one operation *)

Inductive State : Type :=
| Validated (old : string)
| Applied (old : string)
| DiffComputed (result : PatchResult)
| Rejected (e : Error).

Record Settings : Type :=
  mkSettings { store : FileStore.Env; window : nat }.

(** Modelled from the spec: steps 1 and 2, "validate operation kind
    against current file existence" and "capture old content". *)
Definition validate (cfg : Settings) (fs : FS) (root : Path)
           (op : Operation) : State :=
  match PathGuard.resolve (FileStore.limit (store cfg)) fs root (path op) with
  | Failure e => Rejected e
  | Success p =>
      match kind op with
      | create_file =>
          if present fs p then Rejected PreconditionFailed else Validated ""
      | update_file | delete_file =>
          if present fs p then
            match FileStore.read (store cfg) fs root (path op) with
            | Success old => Validated old
            | Failure e => Rejected e
            end
          else Rejected PreconditionFailed
      end
  end.

(** The content that the operation leaves: empty for a delete. *)
Definition target_text (op : Operation) : string :=
  match kind op with
  | delete_file => ""
  | create_file | update_file => nullish (new_text op) ""
  end.

(** Modelled from the spec: step 3, "apply via FileStore (write for
    create/update, remove for delete)", and its failure semantics. *)
Definition apply (cfg : Settings) (fault : Fault) (fs : FS) (root : Path)
           (op : Operation) (st : State) : State * FS :=
  match st with
  | Validated old =>
      let (outcome, fs') :=
        match kind op with
        | delete_file => FileStore.remove (store cfg) fault fs root (path op)
        | create_file | update_file =>
            FileStore.write (store cfg) fault fs root (path op)
                            (target_text op)
        end in
      match outcome with
      | Success _ => (Applied old, fs')
      | Failure e => (Rejected e, fs')
      end
  | _ => (st, fs)
  end.

Definition summary (op : Operation) : string :=
  match kind op with
  | create_file => "Created " ++ path op
  | update_file => "Updated " ++ path op
  | delete_file => "Deleted " ++ path op
  end.

(** Modelled from the spec: steps 4 to 6, the new content, the diff
    and the structured result. *)
Definition compute (cfg : Settings) (op : Operation) (st : State) : State :=
  match st with
  | Applied old =>
      DiffComputed
        (mkPatchResult (summary op) (kind op) (path op)
                       (diff (window cfg) old (target_text op))
                       old (target_text op))
  | _ => st
  end.

(** Modelled from the spec: [apply_patch], the run of the machine to a
    terminal state. *)
Definition apply_patch (cfg : Settings) (fault : Fault) (fs : FS)
           (root : Path) (op : Operation) : State * FS :=
  let (st, fs') := apply cfg fault fs root op (validate cfg fs root op) in
  (compute cfg op st, fs').

End PatchEngine.

(** A text that does not go on with a digit. *)
Definition no_digit_ahead (text : string) : bool :=
  match text with
  | "" => true
  | String c _ => negb (is_digit c)
  end.

Fixpoint all_digits (text : string) : bool :=
  match text with
  | "" => true
  | String c t => is_digit c && all_digits t
  end.

(** ** Notions used to state the properties of the sandbox core *)

(** [fs'] is [fs] with some directories more. *)
Definition only_dirs_added (fs fs' : FS) : Prop :=
  forall q, fs' q = fs q \/ (fs q = None /\ fs' q = Some Dir).

(** The fault hits the file operation of this kind of patch. *)
Definition strikes (fault : Fault) (k : PatchEngine.Kind) : bool :=
  match k, fault with
  | PatchEngine.delete_file, remove_fails => true
  | PatchEngine.delete_file, _ => false
  | _, mkdir_fails | _, create_temp_fails | _, write_temp_fails _
  | _, rename_fails => true
  | _, _ => false
  end.

(** What the target holds after a patch that went through. *)
Definition expected_after (op : PatchEngine.Operation) : option string :=
  match PatchEngine.kind op with
  | PatchEngine.delete_file => None
  | _ => Some (PatchEngine.target_text op)
  end.

(** * More of the front end *)

(** ** page.tsx: the loop that reads the response stream

    [sendMessage] appends every decoded chunk to [streamBuffer.current],
    parses the buffer and keeps what [parseSseEvents] returns as the new
    buffer.  The chunks are the texts that the decoder yields, in order;
    the loop ends when the reader reports the end of the stream. *)

Section ReadLoop.

Variable JSON_parse : string -> outcome json.

Fixpoint read_stream (chunks : list string) (streamBuffer : string)
  : list HandlerCall * string :=
  match chunks with
  | [] => ([], streamBuffer)
  | chunk :: rest =>
      let (calls, remaining) :=
        parseSseEvents JSON_parse (streamBuffer ++ chunk) in
      let (later, final) := read_stream rest remaining in
      ((calls ++ later)%list, final)
  end.

End ReadLoop.

(** ** page.tsx, the earlier page: [parseSseEvents] and [promptWithFile]

    The second module of [page.tsx] is the page as it was before the
    editor: its parser hands the data of an event to [onDone] when the
    event is named [done] and to [onData] otherwise, both as text. *)

Module Legacy.

Inductive Call : Type :=
| onData (data : string)
| onDone (payload : string).

(** The body of the loop over the lines of one event; the [continue]
    behind an [event:] line skips the test for [data:]. *)
Definition scan_line (st : string * list string) (line : string)
  : string * list string :=
  let (eventName, dataLines) := st in
  if startsWith line "event:" then
    (trim (replace "event:" "" line), dataLines)
  else if startsWith line "data:" then
    (eventName, (dataLines ++ [slice 5 line])%list)
  else st.

Definition handle_part (part : string) : list Call :=
  let (eventName, dataLines) :=
    fold_left scan_line (split nl part) ("message", []) in
  match dataLines with
  | [] => []
  | _ =>
      if String.eqb eventName "done" then [onDone (join nl dataLines)]
      else [onData (join nl dataLines)]
  end.

Definition parseSseEvents (buffer : string) : list Call * string :=
  let parts := split (nl ++ nl) buffer in
  let (popped, parts') := pop parts in
  let remaining := nullish popped "" in
  (fold_left (fun calls part => (calls ++ handle_part part)%list) parts' [],
   remaining).

(** [promptWithFile]: the message alone when the file content is blank,
    and otherwise the message, the opening marker, the name line, the
    content and the closing marker, joined by line feeds.  An empty file
    name gives way to [main.tf]. *)
Definition promptWithFile (message fileName fileContent : string) : string :=
  if String.eqb (trim fileContent) "" then message
  else
    join nl [ message;
              nl ++ nl ++ "<FILE>";
              "name: " ++ (if String.eqb fileName "" then "main.tf" else fileName);
              fileContent;
              "</FILE>" ].

End Legacy.

(** ** VscodeEditor.tsx: [getLanguageId] *)

(** [toLowerCase] on the code units below 256: the letters A to Z, and
    the accented capitals from 192 to 222 without the multiplication
    sign, move up by 32. *)
Definition lower_char (c : ascii) : ascii :=
  let n := nat_of_ascii c in
  if ((65 <=? n) && (n <=? 90)
      || (192 <=? n) && (n <=? 222) && negb (Nat.eqb n 215))%nat
  then ascii_of_nat (n + 32) else c.

Fixpoint toLowerCase (text : string) : string :=
  match text with
  | "" => ""
  | String c t => String (lower_char c) (toLowerCase t)
  end.

(** [text.endsWith(suffix)]. *)
Definition endsWith (text suffix : string) : bool :=
  (String.length suffix <=? String.length text)%nat &&
  String.eqb (slice (String.length text - String.length suffix) text) suffix.

(** The tests of [getLanguageId] on the name in lower case. *)
Definition language_of_name (name : string) : string :=
  let ext := nullish (fst (pop (split "." name))) "" in
  if String.eqb ext "ts" || String.eqb ext "tsx" then "typescript"
  else if String.eqb ext "js" || String.eqb ext "jsx" then "javascript"
  else if String.eqb ext "json" then "json"
  else if String.eqb ext "md" then "markdown"
  else if String.eqb ext "py" then "python"
  else if String.eqb ext "sql" then "sql"
  else if String.eqb ext "sh" then "shell"
  else if String.eqb ext "yml" || String.eqb ext "yaml" then "yaml"
  else if String.eqb ext "tf" || String.eqb ext "tfvars"
          || endsWith name ".terraform.lock.hcl" then "hcl"
  else "plaintext".

(** [getLanguageId]: [null] and the empty path are plain text. *)
Definition getLanguageId (filePath : option string) : string :=
  match filePath with
  | None => "plaintext"
  | Some "" => "plaintext"
  | Some path => language_of_name (toLowerCase path)
  end.

(** A text without a dot. *)
Fixpoint dotless (text : string) : bool :=
  match text with
  | "" => true
  | String c t => negb (Ascii.eqb c "."%char) && dotless t
  end.

(** A text of blank space only. *)
Fixpoint blank (text : string) : bool :=
  match text with
  | "" => true
  | String c t => is_js_space c && blank t
  end.

(** ** page.tsx: the panes and the file tree *)

(** [handleLeftResize] and [handleRightResize]: the new width of a pane
    for a drag of [delta] pixels.  Widths and mouse positions are
    numbers of pixels, taken as integers. *)
Definition handleLeftResize (delta w : Z) : Z :=
  Z.max 160 (Z.min 400 (w + delta)).

Definition handleRightResize (delta w : Z) : Z :=
  Z.max 240 (Z.min 460 (w + delta)).

Inductive Direction : Type := left_side | right_side.

(** [ResizeDivider]: the handler of [mousemove] while the divider is
    dragged.  The state is the last mouse position, [startX.current],
    and the width of the pane that [onDrag] updates. *)
Definition handleMouseMove (direction : Direction) (onDrag : Z -> Z -> Z)
           (st : Z * Z) (clientX : Z) : Z * Z :=
  let (startX, w) := st in
  let delta := (clientX - startX)%Z in
  (clientX,
   onDrag (match direction with left_side => delta | right_side => (- delta)%Z end) w).





(** A drag: the mouse positions that the handler sees, one after the
    other. *)
Definition drag (direction : Direction) (onDrag : Z -> Z -> Z)
           (st : Z * Z) (positions : list Z) : Z * Z :=
  fold_left (handleMouseMove direction onDrag) positions st.

(** ** The header format that [computeLineNumbers] documents

    [@@ -oldStart,oldCount +newStart,newCount @@], with the numbers in
    decimal and each count optional. *)
Definition numeral (n : nat) : string :=
  DecimalString.NilEmpty.string_of_uint (Nat.to_uint n).

Definition count_text (count : option nat) : string :=
  match count with
  | Some k => "," ++ numeral k
  | None => ""
  end.

Definition header_text (oldStart : nat) (oldCount : option nat)
           (newStart : nat) (newCount : option nat) : string :=
  "@@ -" ++ numeral oldStart ++ count_text oldCount ++
  " +" ++ numeral newStart ++ count_text newCount ++ " @@".

(** ** page.tsx: the handlers of [sendMessage]

    The handlers that [sendMessage] passes to [parseSseEvents], at the
    types that [page.tsx] declares for them, and what they do to the
    state of the page: the messages, the two maps from call ids, the
    variables of [sendMessage] and the diff that the editor shows.  An
    updater passed to a setter is applied where it is queued; React
    applies the updaters of one setter in that order, and the text that
    the updaters of [onText] read from [fullText] when they run is, by
    the end of the events, the text that was there when they were
    queued or a later one.  The identifiers that [uid()] makes are given
    to the handlers from outside. *)

Module Chat.

Inductive Role : Type := user | assistant | tool | reasoning.

Inductive ToolStatus : Type := running | done.

Record ChatMessage : Type :=
  mkMessage {
      id : string;
      role : Role;
      content : string;
      toolName : option string;
      toolCallId : option string;
      toolArgs : option string;
      toolOutput : option string;
      toolStatus : option ToolStatus }.

(** A [FileDiff], with its fields as they are read off the parsed
    output of [apply_patch]. *)
Record FileDiff : Type :=
  mkFileDiff {
      filePath : option json;
      oldContent : option json;
      newContent : option json;
      operationType : option json }.

Record DonePayload : Type :=
  mkDonePayload { final_output : option string;
                  last_response_id : option string }.

Inductive StreamEvent : Type :=
| Text (text : string)
| ToolCall (name args : string) (callId : option string)
| ToolOutput (output : string) (callId : option string)
| Reasoning (summary : string)
| Done (payload : option DonePayload).

(** A [Map] from strings to strings. *)
Definition StringMap : Type := string -> option string.

Definition map_set (m : StringMap) (key value : string) : StringMap :=
  fun k => if String.eqb k key then Some value else m k.

Record State : Type :=
  mkState {
      messages : list ChatMessage;
      toolMessageIdsByCallId : StringMap;
      toolNamesByCallId : StringMap;
      fullText : string;
      hasAddedStreamingMessage : bool;
      gotDoneEvent : bool;
      donePayload : option DonePayload;
      activeDiff : option FileDiff;
      lastDiffByPath : list (option json * FileDiff);
      lastDiff : option FileDiff;
      selectedFile : option json }.

Definition setMessages (f : list ChatMessage -> list ChatMessage)
           (st : State) : State :=
  mkState (f (messages st)) (toolMessageIdsByCallId st)
          (toolNamesByCallId st) (fullText st)
          (hasAddedStreamingMessage st) (gotDoneEvent st) (donePayload st)
          (activeDiff st) (lastDiffByPath st) (lastDiff st) (selectedFile st).

(** [{ ...m, content: text }] and
    [{ ...m, toolOutput: output, toolStatus: "done" }]. *)
Definition with_content (text : string) (m : ChatMessage) : ChatMessage :=
  mkMessage (id m) (role m) text (toolName m) (toolCallId m) (toolArgs m)
            (toolOutput m) (toolStatus m).

Definition with_output (output : string) (m : ChatMessage) : ChatMessage :=
  mkMessage (id m) (role m) (content m) (toolName m) (toolCallId m)
            (toolArgs m) (Some output) (Some done).

(** [prev.map((m) => m.id === target ? change(m) : m)]. *)
Definition update_message (target : string)
           (change : ChatMessage -> ChatMessage)
           (prev : list ChatMessage) : list ChatMessage :=
  map (fun m => if String.eqb (id m) target then change m else m) prev.

(** A string that counts as true: one that is not empty. *)
Definition nonempty (s : string) : bool := negb (String.eqb s "").

Section Handlers.

Variable JSON_parse : string -> outcome json.

(** The identifier of the message that shows the answer while it
    streams, [streamingMessageId]. *)
Variable streamingMessageId : string.

Definition onText (st : State) (text : string) : State :=
  let fullText' := fullText st ++ text in
  let messages' :=
    if hasAddedStreamingMessage st then
      update_message streamingMessageId (with_content fullText') (messages st)
    else
      (messages st
         ++ [mkMessage streamingMessageId assistant fullText'
                       None None None None None])%list in
  mkState messages' (toolMessageIdsByCallId st) (toolNamesByCallId st)
          fullText' true (gotDoneEvent st) (donePayload st)
          (activeDiff st) (lastDiffByPath st) (lastDiff st) (selectedFile st).

Definition onToolCall (st : State) (fresh name args : string)
           (callId : option string) : State :=
  let key :=
    match callId with
    | Some c => if nonempty c then c else fresh
    | None => fresh
    end in
  mkState (messages st
             ++ [mkMessage fresh tool "" (Some name) callId (Some args)
                           None (Some running)])%list
          (map_set (toolMessageIdsByCallId st) key fresh)
          (map_set (toolNamesByCallId st) key name)
          (fullText st) (hasAddedStreamingMessage st) (gotDoneEvent st)
          (donePayload st) (activeDiff st) (lastDiffByPath st) (lastDiff st)
          (selectedFile st).

(** The lookup [key ? map.get(key) : undefined]. *)
Definition lookup_call (m : StringMap) (callId : option string)
  : option string :=
  match callId with
  | Some c => if nonempty c then m c else None
  | None => None
  end.

(** The diff that [onToolOutput] makes of the parsed output. *)
Definition diff_of (diffData : json) : FileDiff :=
  let field key :=
    match get_prop diffData key with
    | Ok v => v
    | Throw _ => None
    end in
  mkFileDiff (field "file_path") (field "old_content") (field "new_content")
             (field "operation_type").

Definition onToolOutput (st : State) (fresh output : string)
           (callId : option string) : State :=
  let existingId := lookup_call (toolMessageIdsByCallId st) callId in
  let toolName := lookup_call (toolNamesByCallId st) callId in
  let shown :=
    match toolName with
    | Some n =>
        if String.eqb n "apply_patch" then
          match isDiffData JSON_parse output with
          | Ok (Some diffData) => Some (diff_of diffData)
          | _ => None
          end
        else None
    | None => None
    end in
  let activeDiff' :=
    match shown with Some d => Some d | None => activeDiff st end in
  let lastDiffByPath' :=
    match shown with
    | Some d => (filePath d, d) :: lastDiffByPath st
    | None => lastDiffByPath st
    end in
  let lastDiff' :=
    match shown with Some d => Some d | None => lastDiff st end in
  let selectedFile' :=
    match shown with Some d => filePath d | None => selectedFile st end in
  let found :=
    match existingId with
    | Some i => if nonempty i then Some i else None
    | None => None
    end in
  let messages' :=
    match found with
    | None =>
        (messages st
           ++ [mkMessage fresh tool ""
                         (Some (match toolName with
                                | Some n => if nonempty n then n else "tool_output"
                                | None => "tool_output"
                                end))
                         callId None (Some output) (Some done)])%list
    | Some i => update_message i (with_output output) (messages st)
    end in
  mkState messages' (toolMessageIdsByCallId st) (toolNamesByCallId st)
          (fullText st) (hasAddedStreamingMessage st) (gotDoneEvent st)
          (donePayload st) activeDiff' lastDiffByPath' lastDiff' selectedFile'.

Definition onReasoning (st : State) (fresh summary : string) : State :=
  setMessages
    (fun prev =>
       (prev ++ [mkMessage fresh reasoning summary None None None None None])%list)
    st.

Definition onDone (st : State) (payload : option DonePayload) : State :=
  mkState (messages st) (toolMessageIdsByCallId st) (toolNamesByCallId st)
          (fullText st) (hasAddedStreamingMessage st) true payload
          (activeDiff st) (lastDiffByPath st) (lastDiff st) (selectedFile st).

(** One event of the stream, with the identifier that [uid()] would
    make for it. *)
Definition handle (st : State) (ev : StreamEvent * string) : State :=
  let (event, fresh) := ev in
  match event with
  | Text text => onText st text
  | ToolCall name args callId => onToolCall st fresh name args callId
  | ToolOutput output callId => onToolOutput st fresh output callId
  | Reasoning summary => onReasoning st fresh summary
  | Done payload => onDone st payload
  end.

Definition run (st : State) (events : list (StreamEvent * string)) : State :=
  fold_left handle events st.

(** [finalText || "[No response]"], with [finalText] the [final_output]
    of the [done] event when there is one that is not empty, and the
    streamed text otherwise. *)
Definition answer (st : State) : string :=
  let finalText :=
    match gotDoneEvent st, donePayload st with
    | true, Some p =>
        match final_output p with
        | Some t => if nonempty t then t else fullText st
        | None => fullText st
        end
    | _, _ => fullText st
    end in
  if nonempty finalText then finalText else "[No response]".

(** The end of the [try] block of [sendMessage], behind the loop, which
    is reached when nothing has thrown: the message of the answer is
    brought up to date, or added when no text was streamed. *)
Definition finish (st : State) (fresh : string) : State :=
  setMessages
    (fun prev =>
       if hasAddedStreamingMessage st then
         update_message streamingMessageId (with_content (answer st)) prev
       else
         (prev ++ [mkMessage fresh assistant (answer st)
                             None None None None None])%list)
    st.

(** The state in which [sendMessage] enters the [try] block: the
    message of the user behind the messages so far, fresh maps and
    variables. *)
Definition start (st : State) (fresh userMessage : string) : State :=
  mkState (messages st
             ++ [mkMessage fresh user userMessage None None None None None])%list
          (fun _ => None) (fun _ => None) "" false false None
          (activeDiff st) (lastDiffByPath st) (lastDiff st) (selectedFile st).

(** The [catch] clause of [sendMessage]. *)
Definition failed (st : State) (fresh : string) : State :=
  setMessages
    (fun prev =>
       (prev ++ [mkMessage fresh assistant "[Error: Connection failed]"
                           None None None None None])%list)
    st.

(** What the connection does during one call of [sendMessage]: [fetch]
    throws, or the response is not ok or has no body, and the [try]
    block is left before the loop; or the stream is read, and the
    handlers are called for the events of the chunks that are read, up
    to the end of the stream or up to a read that throws. *)
Inductive Ending : Type := complete | broken.

Inductive Connection : Type :=
| refused
| streamed (events : list (StreamEvent * string)) (ending : Ending).

(** The part of the page that [sendMessage] reads and writes. *)
Record Page : Type :=
  mkPage {
      sessionId : option string;
      isStreaming : bool;
      input : string;
      chat : State }.

(** The guard [!sessionId || isStreaming || !input.trim()]. *)
Definition blocked (p : Page) : bool :=
  match sessionId p with
  | Some s => negb (nonempty s)
  | None => true
  end
  || isStreaming p
  || negb (nonempty (trim (input p))).

(** [sendMessage]: [fresh] is the identifier of the message of the
    user and [last] the one of the message that the end of the [try]
    block or the [catch] clause adds.  The calls of [refreshFiles] and
    [readFile] behind the answer catch their own errors and touch
    nothing of this part of the page. *)
Definition sendMessage (p : Page) (fresh : string) (net : Connection)
           (last : string) : Page :=
  if blocked p then p
  else
    let entered := start (chat p) fresh (trim (input p)) in
    let left :=
      match net with
      | refused => failed entered last
      | streamed events complete => finish (run entered events) last
      | streamed events broken => failed (run entered events) last
      end in
    mkPage (sessionId p) false "" left.

End Handlers.

End Chat.

(** The text chunks of a run of events, in order. *)
Definition streamed_text (events : list (Chat.StreamEvent * string)) : string :=
  String.concat ""
    (flat_map (fun ev => match fst ev with
                         | Chat.Text text => [text]
                         | _ => []
                         end) events).

Definition has_text (events : list (Chat.StreamEvent * string)) : bool :=
  existsb (fun ev => match fst ev with Chat.Text _ => true | _ => false end)
          events.

(** The [final_output] of the last [done] event, if it has one. *)
Definition done_output (events : list (Chat.StreamEvent * string))
  : option string :=
  fold_left (fun acc ev =>
               match fst ev with
               | Chat.Done (Some p) => Chat.final_output p
               | Chat.Done None => None
               | _ => acc
               end) events None.

(** The events that the handlers see on a connection. *)
Definition events_of (net : Chat.Connection)
  : list (Chat.StreamEvent * string) :=
  match net with
  | Chat.refused => []
  | Chat.streamed events _ => events
  end.

(** The message of the answer while it streams. *)
Definition answer_message (sid text : string) : Chat.ChatMessage :=
  Chat.mkMessage sid Chat.assistant text None None None None None.

Definition has_id (sid : string) (m : Chat.ChatMessage) : bool :=
  String.eqb (Chat.id m) sid.

(** The state of the page before the first message: the initial values
    of the [useState] and [useRef] calls of [Home]. *)
Definition initial_state : Chat.State :=
  Chat.mkState [] (fun _ => None) (fun _ => None) "" false false None
               None [] None None.

(** The text that the end of [sendMessage] takes for the answer of a run
    of events. *)
Definition final_text (events : list (Chat.StreamEvent * string)) : string :=
  match done_output events with
  | Some t => if Chat.nonempty t then t else streamed_text events
  | None => streamed_text events
  end.

Definition shown_text (events : list (Chat.StreamEvent * string)) : string :=
  if Chat.nonempty (final_text events) then final_text events
  else "[No response]".

(** A call id that counts as false: none, or the empty one. *)
Definition no_call_id (callId : option string) : bool :=
  match callId with
  | Some c => negb (Chat.nonempty c)
  | None => true
  end.

(** What a run of events keeps true of a state: the messages with the
    streaming identifier are the message of the answer with the text
    streamed so far, once it is added, and no tool message has that
    identifier. *)
Definition run_invariant (sid : string) (st : Chat.State) : Prop :=
  filter (has_id sid) (Chat.messages st) =
  (if Chat.hasAddedStreamingMessage st
   then [answer_message sid (Chat.fullText st)] else []) /\
  (forall k i, Chat.toolMessageIdsByCallId st k = Some i -> i <> sid).

(** * Properties *)

(** ** Strings *)

Lemma append_nil_r (s : string) : s ++ "" = s.
Proof. induction s; simpl; congruence. Qed.

Lemma append_assoc (a b c : string) : (a ++ b) ++ c = a ++ (b ++ c).
Proof. induction a; simpl; congruence. Qed.

Lemma length_append (a b : string) :
  String.length (a ++ b) = (String.length a + String.length b)%nat.
Proof. induction a; simpl; congruence. Qed.

Lemma slice_append (a b : string) : slice (String.length a) (a ++ b) = b.
Proof. induction a; simpl; auto. Qed.

Lemma startsWith_append (p rest : string) : startsWith (p ++ rest) p = true.
Proof.
  unfold startsWith. induction p as [|c p IH]; simpl.
  - destruct rest; reflexivity.
  - destruct (ascii_dec c c); [exact IH | congruence].
Qed.

Lemma startsWith_inv (text p : string) :
  startsWith text p = true -> text = p ++ slice (String.length p) text.
Proof.
  unfold startsWith. revert text.
  induction p as [|c p IH]; intros text H; simpl.
  - destruct text; reflexivity.
  - destruct text as [|d t]; simpl in H; [discriminate|].
    destruct (ascii_dec c d) as [->|]; [|discriminate].
    simpl. f_equal. apply IH, H.
Qed.

Lemma startsWith_occurs (text p : string) :
  startsWith text p = true -> occurs p text.
Proof.
  intros H. exists "", (slice (String.length p) text).
  simpl. apply startsWith_inv, H.
Qed.

Lemma occurs_cons (sep : string) (c : ascii) (t : string) :
  occurs sep t -> occurs sep (String c t).
Proof.
  intros (a & b & ->). exists (String c a), b. reflexivity.
Qed.

(** ** [split] *)

Lemma split_from_slice (sep : string) (k : nat) (text : string) :
  split_from sep k text = split_from sep 0 (slice k text).
Proof.
  revert k. induction text as [|c t IH]; intros [|k]; try reflexivity.
  simpl. apply IH.
Qed.

Lemma split_from_nonempty (sep : string) (k : nat) (text : string) :
  split_from sep k text <> [].
Proof.
  revert k. induction text as [|c t IH]; intros k; cbn [split_from].
  - discriminate.
  - destruct k; [|apply IH].
    destruct (startsWith (String c t) sep); [discriminate|].
    destruct (split_from sep 0 t) eqn:E; [now apply IH in E|simpl; discriminate].
Qed.

Lemma split_empty (sep : string) : split sep "" = [""].
Proof. reflexivity. Qed.

Lemma split_at_separator (sep rest : string) :
  sep <> "" -> split sep (sep ++ rest) = "" :: split sep rest.
Proof.
  intros Hsep. destruct sep as [|a sep']; [congruence|].
  unfold split. cbn [split_from append].
  change (String a (sep' ++ rest)) with (String a sep' ++ rest).
  rewrite startsWith_append. f_equal.
  rewrite split_from_slice. simpl. rewrite Nat.sub_0_r.
  now rewrite slice_append.
Qed.

Lemma split_at_other (sep : string) (c : ascii) (t : string) :
  startsWith (String c t) sep = false ->
  split sep (String c t) = cons_head c (split sep t).
Proof.
  intros H. unfold split. cbn [split_from]. now rewrite H.
Qed.

Lemma join_cons_head (sep : string) (c : ascii) (l : list string) :
  l <> [] -> join sep (cons_head c l) = String c (join sep l).
Proof.
  destruct l as [|x [|y l]]; [congruence| |]; reflexivity.
Qed.

Lemma join_cons (sep x : string) (l : list string) :
  l <> [] -> join sep (x :: l) = x ++ sep ++ join sep l.
Proof. destruct l; [congruence|reflexivity]. Qed.

(** Joining the pieces with the separator gives the text back. *)
Lemma join_split (sep text : string) :
  sep <> "" -> join sep (split sep text) = text.
Proof.
  intros Hsep.
  remember (String.length text) as n eqn:Hn.
  revert text Hn. induction n as [n IH] using lt_wf_ind. intros text Hn.
  destruct text as [|c t]; [reflexivity|].
  destruct (startsWith (String c t) sep) eqn:E.
  - apply startsWith_inv in E. rewrite E at 1.
    rewrite split_at_separator by assumption.
    rewrite join_cons by apply split_from_nonempty.
    rewrite (IH (String.length (slice (String.length sep) (String c t)))).
    + simpl. now rewrite <- E.
    + subst n. rewrite E at 2. rewrite length_append.
      destruct sep; [congruence|simpl; lia].
    + reflexivity.
  - rewrite split_at_other by assumption.
    rewrite join_cons_head by apply split_from_nonempty.
    f_equal. apply (IH (String.length t)); [subst n; simpl; lia|reflexivity].
Qed.

(** A text without the separator is one piece. *)
Lemma split_without_separator (sep text : string) :
  ~ occurs sep text -> split sep text = [text].
Proof.
  induction text as [|c t IH]; intros H; [reflexivity|].
  destruct (startsWith (String c t) sep) eqn:E.
  - exfalso. apply H, startsWith_occurs, E.
  - rewrite split_at_other by assumption.
    rewrite IH; [reflexivity|]. intros Ho. apply H, occurs_cons, Ho.
Qed.

(** The first piece ends at the leftmost separator and the other pieces
    are those of the text behind it. *)
Lemma split_first (sep a text b : string) :
  sep <> "" -> first_at sep a text b ->
  split sep text = a :: split sep b.
Proof.
  intros Hsep. revert text.
  induction a as [|c a IH]; intros text [-> Hmin].
  - simpl. now apply split_at_separator.
  - simpl. rewrite split_at_other.
    + rewrite (IH (a ++ sep ++ b)).
      * reflexivity.
      * split; [reflexivity|]. intros a' b' E.
        specialize (Hmin (String c a') b'). simpl in Hmin.
        rewrite E in Hmin. specialize (Hmin eq_refl). lia.
    + destruct (startsWith (String c (a ++ sep ++ b)) sep) eqn:E; [|reflexivity].
      apply startsWith_inv in E.
      specialize (Hmin "" _ E). simpl in Hmin. lia.
Qed.

Example split_blank_lines :
  split blank_line ("a" ++ nl ++ nl ++ nl ++ "b" ++ nl ++ nl) =
  ["a"; nl ++ "b"; ""].
Proof. reflexivity. Qed.

Example split_empty_text : split nl "" = [""].
Proof. reflexivity. Qed.

(** ** [SplitDiffView] *)

Lemma number_rows_length (idx : Z) (ls : list string) :
  List.length (number_rows idx ls) = List.length ls.
Proof. revert idx; induction ls; simpl; auto. Qed.

(** C10.  For every string [s], [s.split("\n")] has at least one
    element; so a column of [SplitDiffView] never shows its placeholder
    (the branches guarded by [oldLines.length === 0] and
    [newLines.length === 0] are dead), it shows at least one row, and an
    empty content is shown as one blank row with the number 1. *)
Theorem split_column_never_placeholder :
  (forall s, (1 <= List.length (split nl s))%nat) /\
  (forall s, placeholder (split_column s) = false /\
             (1 <= List.length (rows (split_column s)))%nat) /\
  split_column "" = mkColumn [(1%Z, "")] false.
Proof.
  assert (H : forall s, (1 <= List.length (split nl s))%nat).
  { intros s. pose proof (split_from_nonempty nl 0 s) as Hne.
    unfold split. destruct (split_from nl 0 s); [congruence|simpl; lia]. }
  split; [exact H|]. split; [|reflexivity].
  intros s. specialize (H s). unfold split_column. simpl.
  rewrite number_rows_length. split; [|exact H].
  destruct (List.length (split nl s)); [lia|reflexivity].
Qed.

(** ** [computeLineNumbers] *)

Lemma number_lines_length (st : Counters) (lines : list DiffLine) :
  List.length (number_lines st lines) = List.length lines.
Proof.
  revert st. induction lines as [|l ls IH]; intros st; simpl; [reflexivity|].
  destruct (number_line st l). simpl. now rewrite IH.
Qed.

Lemma number_lines_app (st : Counters) (pre rest : list DiffLine) :
  number_lines st (pre ++ rest)%list =
  (number_lines st pre ++ number_lines (run_counters st pre) rest)%list.
Proof.
  revert st. induction pre as [|l ls IH]; intros st; [reflexivity|].
  cbn [app number_lines].
  destruct (number_line st l) as [st' r] eqn:E. cbn [app]. f_equal.
  rewrite IH. unfold run_counters. cbn [fold_left]. now rewrite E.
Qed.

(** The element at the position behind a prefix. *)
Lemma number_lines_at (st : Counters) (pre : list DiffLine) (l : DiffLine)
      (post : list DiffLine) :
  nth_error (number_lines st (pre ++ l :: post)%list) (List.length pre) =
  Some (snd (number_line (run_counters st pre) l)).
Proof.
  rewrite number_lines_app.
  rewrite nth_error_app2 by (rewrite number_lines_length; lia).
  rewrite number_lines_length, Nat.sub_diag. simpl.
  now destruct (number_line (run_counters st pre) l).
Qed.

Lemma run_counters_app (st : Counters) (a b : list DiffLine) :
  run_counters st (a ++ b)%list = run_counters (run_counters st a) b.
Proof. unfold run_counters. apply fold_left_app. Qed.

(** Without a hunk line the counters count the lines of each file. *)
Lemma run_counters_no_hunk (st : Counters) (lines : list DiffLine) :
  forallb (fun l => negb (is_hunk l)) lines = true ->
  run_counters st lines =
  mkCounters (cOld st + count_old lines) (cNew st + count_new lines).
Proof.
  unfold count_old, count_new.
  revert st. induction lines as [|l ls IH]; intros st H.
  - simpl. destruct st; simpl. f_equal; lia.
  - simpl in H. apply andb_true_iff in H as [Hl Hls].
    unfold run_counters in *. simpl fold_left. rewrite (IH _ Hls).
    unfold number_line, in_old, in_new, is_hunk in *.
    simpl filter.
    destruct (type l); simpl in *; try discriminate; f_equal; lia.
Qed.

Example computeLineNumbers_in_a_hunk :
  computeLineNumbers
    [ mkDiffLine hunk "@@ -5,2 +10,3 @@"; mkDiffLine context "a";
      mkDiffLine remove "b"; mkDiffLine add "c"; mkDiffLine context "d" ] =
  [ mkLineNumbers None None; mkLineNumbers (Some 5%Z) (Some 10%Z);
    mkLineNumbers (Some 6%Z) None; mkLineNumbers None (Some 11%Z);
    mkLineNumbers (Some 7%Z) (Some 12%Z) ].
Proof. reflexivity. Qed.

Example hunk_start_without_counts :
  hunk_start "diff @@ -12 +14 @@ resource" = Some (12%Z, 14%Z).
Proof. reflexivity. Qed.

Example hunk_start_incomplete : hunk_start "@@ -12, +14 @@" = None.
Proof. reflexivity. Qed.

Lemma count_old_none (pre : list DiffLine) :
  forallb (fun x => negb (in_old x)) pre = true -> count_old pre = 0%Z.
Proof.
  unfold count_old. induction pre as [|x xs IH]; intros H; [reflexivity|].
  simpl in H. apply andb_true_iff in H as [Hx Hxs].
  simpl. apply negb_true_iff in Hx. rewrite Hx. now apply IH.
Qed.

Lemma count_new_none (pre : list DiffLine) :
  forallb (fun x => negb (in_new x)) pre = true -> count_new pre = 0%Z.
Proof.
  unfold count_new. induction pre as [|x xs IH]; intros H; [reflexivity|].
  simpl in H. apply andb_true_iff in H as [Hx Hxs].
  simpl. apply negb_true_iff in Hx. rewrite Hx. now apply IH.
Qed.

(** C4.  The line numbers of [computeLineNumbers] are derived and
    1-based.  A hunk line carries [null] for both numbers, in every
    listing.  In a listing without hunk lines, a line of the old file
    carries one more than the number of [context] and [remove] lines
    before it, and a line of the new file one more than the number of
    [context] and [add] lines before it: a [context] line advances both
    counters and carries both numbers, an [add] line advances the new
    counter only and carries [null] for the old number, a [remove] line
    advances the old counter only and carries [null] for the new number;
    so the first [context] or [remove] line carries the old number 1 and
    the first [context] or [add] line the new number 1. *)
Theorem computeLineNumbers_one_based
        (pre : list DiffLine) (l : DiffLine) (post : list DiffLine) :
  let numbers := computeLineNumbers (pre ++ l :: post)%list in
  (type l = hunk ->
   nth_error numbers (List.length pre) = Some (mkLineNumbers None None)) /\
  (forallb (fun x => negb (is_hunk x)) (pre ++ l :: post)%list = true ->
   nth_error numbers (List.length pre) =
   Some (match type l with
         | context => mkLineNumbers (Some (count_old pre + 1)%Z)
                                    (Some (count_new pre + 1)%Z)
         | add => mkLineNumbers None (Some (count_new pre + 1)%Z)
         | remove => mkLineNumbers (Some (count_old pre + 1)%Z) None
         | hunk => mkLineNumbers None None
         end) /\
   (in_old l = true -> forallb (fun x => negb (in_old x)) pre = true ->
    exists r, nth_error numbers (List.length pre) = Some r /\
              oldLine r = Some 1%Z) /\
   (in_new l = true -> forallb (fun x => negb (in_new x)) pre = true ->
    exists r, nth_error numbers (List.length pre) = Some r /\
              newLine r = Some 1%Z)).
Proof.
  cbv zeta. unfold computeLineNumbers. rewrite number_lines_at. split.
  - intros Hl. unfold number_line. rewrite Hl.
    now destruct (hunk_match (content l)) as [[? ?]|].
  - intros Hno.
    rewrite forallb_app in Hno. apply andb_true_iff in Hno as [Hpre _].
    rewrite (run_counters_no_hunk _ _ Hpre). unfold number_line. simpl.
    split; [destruct (type l); reflexivity|]. split.
    + intros Hl H. rewrite (count_old_none pre H). unfold in_old in Hl.
      eexists. split; [reflexivity|].
      destruct (type l); try discriminate; reflexivity.
    + intros Hl H. rewrite (count_new_none pre H). unfold in_new in Hl.
      eexists. split; [reflexivity|].
      destruct (type l); try discriminate; reflexivity.
Qed.

Lemma computeLineNumbers_one_based_witness :
  nth_error
    (computeLineNumbers
       [ mkDiffLine add "a"; mkDiffLine context "b"; mkDiffLine remove "c";
         mkDiffLine context "d" ]) 3 =
  Some (mkLineNumbers (Some 3%Z) (Some 3%Z)).
Proof.
  exact (proj1 (proj2 (computeLineNumbers_one_based
                         [mkDiffLine add "a"; mkDiffLine context "b";
                          mkDiffLine remove "c"]
                         (mkDiffLine context "d") [])
                  eq_refl)).
Defined.

Lemma run_counters_keeps_old (st : Counters) (mid : list DiffLine) :
  forallb keeps_old mid = true -> cOld (run_counters st mid) = cOld st.
Proof.
  revert st. induction mid as [|x xs IH]; intros st H; [reflexivity|].
  simpl in H. apply andb_true_iff in H as [Hx Hxs].
  unfold run_counters in *. cbn [fold_left]. rewrite (IH _ Hxs).
  unfold keeps_old, headerless, number_line in *.
  destruct (type x); try discriminate; try reflexivity.
  apply andb_true_iff in Hx as [_ Hx].
  now destruct (hunk_match (content x)).
Qed.

Lemma run_counters_keeps_new (st : Counters) (mid : list DiffLine) :
  forallb keeps_new mid = true -> cNew (run_counters st mid) = cNew st.
Proof.
  revert st. induction mid as [|x xs IH]; intros st H; [reflexivity|].
  simpl in H. apply andb_true_iff in H as [Hx Hxs].
  unfold run_counters in *. cbn [fold_left]. rewrite (IH _ Hxs).
  unfold keeps_new, headerless, number_line in *.
  destruct (type x); try discriminate; try reflexivity.
  apply andb_true_iff in Hx as [_ Hx].
  now destruct (hunk_match (content x)).
Qed.

Lemma number_line_header (st : Counters) (h : DiffLine) (os ns : Z) :
  type h = hunk -> hunk_start (content h) = Some (os, ns) ->
  fst (number_line st h) = mkCounters (os - 1) (ns - 1).
Proof.
  unfold hunk_start, number_line. intros -> H.
  destruct (hunk_match (content h)) as [[g1 g2]|]; [|discriminate].
  now inversion H.
Qed.

(** C1, amended.  When a hunk line has a content with the header
    [@@ -oldStart[,oldCount] +newStart[,newCount] @@] in it, the first
    [remove] or [context] line behind it carries the old line number
    [oldStart], provided that no hunk line with a header stands between
    the two; and the first [add] or [context] line behind it carries the
    new line number [newStart], under the same proviso.  This is for
    starts that are safe integers, at most [2^53 - 1], which [parseInt]
    reads and the counters count exactly. *)
Theorem hunk_header_numbers_next_lines
        (pre : list DiffLine) (h : DiffLine) (mid : list DiffLine)
        (l : DiffLine) (post : list DiffLine) (oldStart newStart : Z) :
  type h = hunk ->
  hunk_start (content h) = Some (oldStart, newStart) ->
  let numbers := computeLineNumbers (pre ++ h :: mid ++ l :: post)%list in
  let i := (List.length pre + 1 + List.length mid)%nat in
  (in_old l = true -> forallb keeps_old mid = true ->
   safe_integer oldStart = true ->
   exists r, nth_error numbers i = Some r /\ oldLine r = Some oldStart) /\
  (in_new l = true -> forallb keeps_new mid = true ->
   safe_integer newStart = true ->
   exists r, nth_error numbers i = Some r /\ newLine r = Some newStart).
Proof.
  intros Hh Hs numbers i.
  assert (E : nth_error numbers i =
              Some (snd (number_line
                           (run_counters (mkCounters (oldStart - 1) (newStart - 1)) mid)
                           l))).
  { subst numbers i. unfold computeLineNumbers.
    replace (pre ++ h :: mid ++ l :: post)%list
      with ((pre ++ h :: mid) ++ l :: post)%list
      by (rewrite <- app_assoc; reflexivity).
    replace (List.length pre + 1 + List.length mid)%nat
      with (List.length (pre ++ h :: mid)%list)
      by (rewrite length_app; simpl; lia).
    rewrite number_lines_at. do 2 f_equal.
    change (pre ++ h :: mid)%list with (pre ++ [h] ++ mid)%list.
    rewrite !run_counters_app.
    replace (run_counters (run_counters (mkCounters 0 0) pre) [h])
      with (mkCounters (oldStart - 1) (newStart - 1)); [reflexivity|].
    symmetry. apply (number_line_header _ h oldStart newStart Hh Hs). }
  split; intros Hl Hmid _; eexists; (split; [exact E|]).
  - pose proof (run_counters_keeps_old (mkCounters (oldStart - 1) (newStart - 1)) mid Hmid) as K.
    unfold number_line, in_old in *.
    destruct (type l); try discriminate; simpl in *; rewrite K; f_equal; lia.
  - pose proof (run_counters_keeps_new (mkCounters (oldStart - 1) (newStart - 1)) mid Hmid) as K.
    unfold number_line, in_new in *.
    destruct (type l); try discriminate; simpl in *; rewrite K; f_equal; lia.
Qed.

Lemma hunk_header_numbers_next_lines_witness :
  exists r,
    nth_error
      (computeLineNumbers
         [ mkDiffLine context "a"; mkDiffLine hunk "@@ -12,3 +14,4 @@";
           mkDiffLine add "b"; mkDiffLine hunk "..."; mkDiffLine remove "c" ])
      4 = Some r /\ oldLine r = Some 12%Z.
Proof.
  exact (proj1 (hunk_header_numbers_next_lines
                  [mkDiffLine context "a"]
                  (mkDiffLine hunk "@@ -12,3 +14,4 @@")
                  [mkDiffLine add "b"; mkDiffLine hunk "..."]
                  (mkDiffLine remove "c") [] 12%Z 14%Z eq_refl eq_refl)
               eq_refl eq_refl eq_refl).
Defined.

(** C1 as it is stated fails: a second hunk line with a header between
    the first one and the next line of the old file sets the counters
    anew, and that line carries the start of the second header. *)
Lemma hunk_header_superseded :
  ~ (forall pre h mid l post oldStart newStart,
        type h = hunk ->
        hunk_start (content h) = Some (oldStart, newStart) ->
        in_old l = true ->
        forallb (fun x => negb (in_old x)) mid = true ->
        exists r,
          nth_error (computeLineNumbers (pre ++ h :: mid ++ l :: post)%list)
                    (List.length pre + 1 + List.length mid) = Some r /\
          oldLine r = Some oldStart).
Proof.
  intros H.
  destruct (H [] (mkDiffLine hunk "@@ -5,1 +10,1 @@")
              [mkDiffLine hunk "@@ -20,1 +30,1 @@"]
              (mkDiffLine context "x") [] 5%Z 10%Z
              eq_refl eq_refl eq_refl eq_refl) as (r & Hr & Ho).
  vm_compute in Hr. inversion Hr; subst r. discriminate Ho.
Qed.

(** ** The fixtures *)

(** C7.  The fixture named [s3_bucket.tf] has a line that assigns
    ["public-read"] to [acl]; the fixture named [security_group.tf] has
    an [ingress] block that assigns 22 to [from_port], 22 to [to_port]
    and [["0.0.0.0/0"]] to [cidr_blocks]; the fixture named [rds.tf]
    assigns a quoted literal, ["password123"], to [password]. *)
Theorem fixtures_realize_scenarios :
  (exists f,
      fixture_named "s3_bucket.tf" = Some f /\
      has_assignment "acl" (dquote "'public-read'")
                     (split nl (file_content f)) = true) /\
  (exists f body,
      fixture_named "security_group.tf" = Some f /\
      block_body "ingress" (split nl (file_content f)) = Some body /\
      has_assignment "from_port" "22" body = true /\
      has_assignment "to_port" "22" body = true /\
      has_assignment "cidr_blocks" (dquote "['0.0.0.0/0']") body = true) /\
  (exists f,
      fixture_named "rds.tf" = Some f /\
      has_assignment "password" (dquote "'password123'")
                     (split nl (file_content f)) = true /\
      has_literal_assignment "password" (split nl (file_content f)) = true).
Proof.
  split; [|split].
  - eexists. split; [reflexivity|]. vm_compute. reflexivity.
  - do 2 eexists. split; [reflexivity|]. split; [vm_compute; reflexivity|].
    repeat split; vm_compute; reflexivity.
  - eexists. split; [reflexivity|]. split; vm_compute; reflexivity.
Qed.

(** The assignment to [acl] is aligned with the one above it: the line is
    written with four spaces before the equals sign, and the text with a
    single space does not occur in the fixture. *)
Lemma acl_assignment_is_aligned :
  forall f, fixture_named "s3_bucket.tf" = Some f ->
    In (dquote "  acl    = 'public-read'") (split nl (file_content f)) /\
    String.index 0 (dquote "acl = 'public-read'") (file_content f) = None.
Proof.
  intros f H. vm_compute in H. inversion H; subst f. clear H.
  split; [|vm_compute; reflexivity].
  vm_compute. do 6 right. left. reflexivity.
Qed.

(** ** [isDiffData] *)

Lemma has_string_field_object (v : json) (key : string) :
  has_string_field v key = true -> exists ms, v = JObject ms.
Proof.
  unfold has_string_field, get_prop.
  destruct v; simpl; try discriminate. eauto.
Qed.

Lemma checked_result_object (v : json) :
  checked_result v = true -> exists ms, v = JObject ms.
Proof.
  unfold checked_result. intros H.
  repeat (apply andb_true_iff in H as [H _]).
  eapply has_string_field_object, H.
Qed.

Example isDiffData_of_null : isDiffData reference_parse "null" = Ok None.
Proof. reflexivity. Qed.

Example isDiffData_of_plain_text :
  isDiffData reference_parse "Patch applied." = Ok None.
Proof. reflexivity. Qed.

Example isDiffData_of_result :
  exists v,
    isDiffData reference_parse
      (dquote "{'message':'Updated main.tf','operation_type':'update_file','file_path':'main.tf','diff_lines':[{'type':'remove','content':'a'},{'type':'add','content':'b'}],'old_content':'a','new_content':'b'}")
    = Ok (Some v) /\ complete_result v = true.
Proof. eexists. split; vm_compute; reflexivity. Qed.

Section IsDiffData.

Variable JSON_parse : string -> outcome json.

(** The [try] block of [isDiffData] returns the parsed value exactly
    when the four checks pass, and it throws only when the parser
    does. *)
Lemma isDiffData_try_spec (output : string) :
  isDiffData_try JSON_parse output =
  match JSON_parse output with
  | Ok v => if checked_result v then Ok (Some v) else Ok None
  | Throw e => Throw e
  end.
Proof.
  unfold isDiffData_try, bind.
  destruct (JSON_parse output) as [v|e]; [|reflexivity].
  unfold checked_result, has_string_field, has_array_field.
  destruct v; try reflexivity.
  - destruct b; reflexivity.
  - simpl. destruct (rounds_to_zero mantissa exponent); reflexivity.
  - destruct s; reflexivity.
  - simpl.
    destruct (is_string (lookup_last (codes "message") members));
      [|reflexivity].
    destruct (is_string (lookup_last (codes "operation_type") members));
      [|reflexivity].
    destruct (is_string (lookup_last (codes "file_path") members));
      [|reflexivity].
    destruct (is_array (lookup_last (codes "diff_lines") members));
      reflexivity.
Qed.

Lemma isDiffData_spec (output : string) :
  isDiffData JSON_parse output =
  match JSON_parse output with
  | Ok v => if checked_result v then Ok (Some v) else Ok None
  | Throw _ => Ok None
  end.
Proof.
  unfold isDiffData. rewrite isDiffData_try_spec.
  destruct (JSON_parse output) as [v|e]; [|reflexivity].
  destruct (checked_result v); reflexivity.
Qed.

(** C5, amended.  A tool output that [isDiffData] accepts is the JSON
    text of an object whose [message], [operation_type] and
    [file_path] are strings and whose [diff_lines] is an array, and
    every such text is accepted; [old_content], [new_content] and the
    elements of [diff_lines] are not looked at. *)
Theorem isDiffData_accepts_checked (output : string) (v : json) :
  isDiffData JSON_parse output = Ok (Some v) <->
  JSON_parse output = Ok v /\ checked_result v = true.
Proof.
  rewrite isDiffData_spec.
  destruct (JSON_parse output) as [w|e].
  - destruct (checked_result w) eqn:E; split.
    + intros H. inversion H; subst. auto.
    + intros [H _]. inversion H; subst. reflexivity.
    + discriminate.
    + intros [H C]. inversion H; subst. congruence.
  - split; [discriminate|]. intros [H _]. discriminate.
Qed.

(** C8.  [isDiffData] returns for every input, an object or [null],
    and never throws.  It returns [null] for a text that [JSON.parse]
    rejects, and for a parsed value without a string [message], a
    string [operation_type], a string [file_path] or an array
    [diff_lines]. *)
Theorem isDiffData_total (output : string) :
  (exists r, isDiffData JSON_parse output = Ok r /\
             (r = None \/ exists ms, r = Some (JObject ms))) /\
  (forall e, JSON_parse output = Throw e ->
             isDiffData JSON_parse output = Ok None) /\
  (forall v, JSON_parse output = Ok v ->
             has_string_field v "message" = false \/
             has_string_field v "operation_type" = false \/
             has_string_field v "file_path" = false \/
             has_array_field v "diff_lines" = false ->
             isDiffData JSON_parse output = Ok None).
Proof.
  rewrite isDiffData_spec. split; [|split].
  - destruct (JSON_parse output) as [v|e]; [|eauto].
    destruct (checked_result v) eqn:E; [|eauto].
    destruct (checked_result_object v E) as [ms ->]. eauto.
  - intros e ->. reflexivity.
  - intros v -> H. unfold checked_result.
    destruct H as [-> | [-> | [-> | ->]]];
      rewrite ?andb_false_r; reflexivity.
Qed.

End IsDiffData.

Lemma isDiffData_accepts_checked_witness :
  exists v,
    reference_parse
      (dquote "{'message':'ok','operation_type':'update_file','file_path':'main.tf','diff_lines':[]}")
    = Ok v /\ checked_result v = true.
Proof.
  eexists.
  apply (proj1 (isDiffData_accepts_checked reference_parse _ _)).
  vm_compute. reflexivity.
Defined.

Lemma isDiffData_total_witness :
  isDiffData reference_parse (dquote "{'message':'ok','diff_lines':[]}")
  = Ok None.
Proof.
  eapply (proj2 (proj2 (isDiffData_total reference_parse _))).
  - vm_compute. reflexivity.
  - right. left. vm_compute. reflexivity.
Defined.

(** C5 as it is stated fails: a result without [old_content] and
    [new_content] is accepted. *)
Lemma isDiffData_accepts_incomplete :
  ~ (forall output v,
        isDiffData reference_parse output = Ok (Some v) ->
        complete_result v = true).
Proof.
  intros H.
  specialize (H (dquote "{'message':'ok','operation_type':'update_file','file_path':'main.tf','diff_lines':[]}")).
  vm_compute in H. specialize (H _ eq_refl). discriminate H.
Qed.

(** ** [parseSseEvents] *)

Lemma last_cons {A : Type} (xs : list A) (x d : A) :
  last (x :: xs) d = last xs x.
Proof.
  revert x d. induction xs as [|y ys IH]; intros x d; [reflexivity|].
  change (last (x :: y :: ys) d) with (last (y :: ys) d).
  now rewrite !IH.
Qed.

Lemma pop_nonempty {A : Type} (arr : list A) (d : A) :
  arr <> [] -> pop arr = (Some (last arr d), removelast arr).
Proof.
  destruct arr as [|x xs]; [congruence|]. intros _. unfold pop.
  now rewrite last_cons.
Qed.

Lemma fold_left_calls {A B : Type} (f : A -> list B) (l : list A) (acc : list B) :
  fold_left (fun calls x => (calls ++ f x)%list) l acc =
  (acc ++ flat_map f l)%list.
Proof.
  revert acc. induction l as [|x xs IH]; intros acc; simpl.
  - now rewrite app_nil_r.
  - rewrite IH. now rewrite app_assoc.
Qed.

Lemma event_line_is_no_data_line (line : string) :
  startsWith line "event:" = true -> startsWith line "data:" = false.
Proof.
  intros H. apply startsWith_inv in H. rewrite H. reflexivity.
Qed.

Lemma filter_none {A : Type} (f : A -> bool) (ls : list A) :
  (forall l, In l ls -> f l = false) -> filter f ls = [].
Proof.
  induction ls as [|l ls IH]; intros H; [reflexivity|].
  simpl. rewrite (H l) by now left. apply IH. intros; apply H; now right.
Qed.

Lemma slice_data (x : string) : slice 5 ("data:" ++ x) = x.
Proof. apply (slice_append "data:" x). Qed.

(** The data lines of an event, in order: what stands behind the prefix
    [data:] on every line that starts with it. *)
Lemma scan_lines_data (lines : list string) (st : string * list string) :
  snd (fold_left scan_line lines st) =
  (snd st ++ map (slice 5) (filter (fun l => startsWith l "data:") lines))%list.
Proof.
  revert st. induction lines as [|l ls IH]; intros [e acc]; simpl.
  - now rewrite app_nil_r.
  - rewrite IH. unfold scan_line.
    destruct (startsWith l "event:") eqn:E.
    + now rewrite (event_line_is_no_data_line l E).
    + destruct (startsWith l "data:"); simpl; [|reflexivity].
      now rewrite <- app_assoc.
Qed.

(** Without a line that starts with [event:] the name stays what it is. *)
Lemma scan_lines_name (lines : list string) (st : string * list string) :
  (forall l, In l lines -> startsWith l "event:" = false) ->
  fst (fold_left scan_line lines st) = fst st.
Proof.
  revert st. induction lines as [|l ls IH]; intros [e acc] H; [reflexivity|].
  simpl. rewrite IH by (intros; apply H; now right).
  unfold scan_line. rewrite (H l) by now left.
  destruct (startsWith l "data:"); reflexivity.
Qed.

Example parseSseEvents_of_a_stream :
  parseSseEvents reference_parse
    ("data: Hello" ++ nl ++ "data:world" ++ nl ++ nl ++
     "event: done" ++ nl ++ "data: {}" ++ nl ++ nl ++
     ": keep-alive" ++ nl ++ nl ++
     "event: tool_called" ++ nl ++ "data: null" ++ nl ++ nl ++
     "data: par") =
  ([onText (" Hello" ++ nl ++ "world"); onDone (Some (JObject []))],
   "data: par").
Proof. vm_compute. reflexivity. Qed.

Section ParseSseEvents.

Variable JSON_parse : string -> outcome json.

Lemma parseSseEvents_spec (buffer : string) :
  parseSseEvents JSON_parse buffer =
  (flat_map (handle_part JSON_parse) (removelast (split blank_line buffer)),
   last (split blank_line buffer) "").
Proof.
  unfold parseSseEvents. fold blank_line.
  rewrite (pop_nonempty (split blank_line buffer) "") by apply split_from_nonempty.
  simpl. now rewrite fold_left_calls.
Qed.

(** C9.  [parseSseEvents] cuts the buffer at the delimiter of two line
    feeds.  It handles the pieces before the last one, in order, and
    returns the last piece as it is; the pieces joined by the delimiter
    are the buffer.  So a buffer without the delimiter is returned
    whole and nothing is handled, and a buffer with it is handled as
    its first event followed by what stands behind the first
    delimiter.  An event without a line that starts with [data:] calls
    no handler.  The data of an event are the texts behind the five
    characters [data:] of such lines, unchanged, a leading space
    included; an event that names no type passes them to [onText],
    joined by line feeds. *)
Theorem parseSseEvents_complete_events (buffer : string) :
  (parseSseEvents JSON_parse buffer =
   (flat_map (handle_part JSON_parse) (removelast (split blank_line buffer)),
    last (split blank_line buffer) "") /\
   join blank_line (split blank_line buffer) = buffer) /\
  (~ occurs blank_line buffer -> parseSseEvents JSON_parse buffer = ([], buffer)) /\
  (forall a b,
      first_at blank_line a buffer b ->
      parseSseEvents JSON_parse buffer =
      ((handle_part JSON_parse a ++ fst (parseSseEvents JSON_parse b))%list,
       snd (parseSseEvents JSON_parse b))) /\
  (forall part,
      (forall l, In l (split nl part) -> startsWith l "data:" = false) ->
      handle_part JSON_parse part = []) /\
  (forall part,
      snd (scan_lines (split nl part)) =
      map (slice 5)
          (filter (fun l => startsWith l "data:") (split nl part))) /\
  (forall text, slice 5 ("data:" ++ text) = text) /\
  (forall part,
      (forall l, In l (split nl part) -> startsWith l "event:" = false) ->
      snd (scan_lines (split nl part)) <> [] ->
      handle_part JSON_parse part =
      [onText (join nl (snd (scan_lines (split nl part))))]).
Proof.
  assert (Hdd : blank_line <> "") by discriminate.
  split; [split|split; [|split; [|split; [|split; [|split]]]]].
  - apply parseSseEvents_spec.
  - now apply join_split.
  - intros H. rewrite parseSseEvents_spec.
    now rewrite (split_without_separator blank_line buffer H).
  - intros a b H. rewrite !parseSseEvents_spec.
    rewrite (split_first blank_line a buffer b Hdd H).
    pose proof (split_from_nonempty blank_line 0 b) as Hne. fold (split blank_line b) in Hne.
    destruct (split blank_line b) as [|x xs] eqn:E; [congruence|].
    reflexivity.
  - intros part H. unfold handle_part.
    destruct (scan_lines (split nl part)) as [e ds] eqn:E.
    assert (D : ds = snd (scan_lines (split nl part))) by now rewrite E.
    unfold scan_lines in D. rewrite scan_lines_data in D. simpl in D.
    rewrite (filter_none _ _ H) in D. now subst ds.
  - intros part. unfold scan_lines. now rewrite scan_lines_data.
  - apply slice_data.
  - intros part He Hd. unfold handle_part.
    pose proof (scan_lines_name (split nl part) ("message", []) He) as Hn.
    fold (scan_lines (split nl part)) in Hn.
    destruct (scan_lines (split nl part)) as [e ds]. simpl in *. subst e.
    destruct ds; [congruence|reflexivity].
Qed.

End ParseSseEvents.

Lemma parseSseEvents_complete_events_witness :
  parseSseEvents reference_parse ("data: par" ++ nl ++ "data:tial") =
  ([], "data: par" ++ nl ++ "data:tial").
Proof.
  apply (proj1 (proj2 (parseSseEvents_complete_events reference_parse _))).
  intros (a & b & E).
  assert (H : String.index 0 (nl ++ nl) ("data: par" ++ nl ++ "data:tial") = None)
    by (vm_compute; reflexivity).
  apply (index_correct3 0 (String.length a) _ _ H); [discriminate|lia|].
  rewrite E. clear.
  induction a as [|c a IH]; [destruct b; reflexivity|exact IH].
Defined.

(** ** The hunk header, written and read *)

Lemma literal_append (lit rest : string) : literal lit (lit ++ rest) = Some rest.
Proof.
  induction lit as [|c lit IH]; simpl; [now destruct rest|].
  now rewrite Ascii.eqb_refl.
Qed.

Lemma span_digits_append (ds rest : string) :
  all_digits ds = true -> no_digit_ahead rest = true ->
  span_digits (ds ++ rest) = (ds, rest).
Proof.
  intros Hd Hr. induction ds as [|c ds IH]; cbn [append span_digits].
  - destruct rest as [|r rest]; [reflexivity|].
    cbn [no_digit_ahead] in Hr. apply negb_true_iff in Hr.
    cbn [span_digits]. now rewrite Hr.
  - cbn [all_digits] in Hd. apply andb_true_iff in Hd as [Hc Hd].
    rewrite Hc, (IH Hd). reflexivity.
Qed.

Lemma digits1_append (ds rest : string) :
  ds <> "" -> all_digits ds = true -> no_digit_ahead rest = true ->
  digits1 (ds ++ rest) = Some (ds, rest).
Proof.
  intros Hne Hd Hr. unfold digits1. rewrite span_digits_append by assumption.
  destruct ds; [congruence|reflexivity].
Qed.

Lemma string_of_uint_digits (d : Decimal.uint) :
  all_digits (DecimalString.NilEmpty.string_of_uint d) = true.
Proof. induction d; simpl; auto. Qed.

Lemma string_of_uint_value (d : Decimal.uint) (acc : nat) :
  parseInt_acc (Z.of_nat acc) (DecimalString.NilEmpty.string_of_uint d) =
  Z.of_nat (Nat.of_uint_acc d acc).
Proof.
  revert acc. induction d; intros acc; cbn [Nat.of_uint_acc];
    [reflexivity|..];
    cbn [DecimalString.NilEmpty.string_of_uint parseInt_acc];
    rewrite <- IHd; f_equal; rewrite Nat.tail_mul_spec;
    unfold digit_value; cbn [nat_of_ascii]; simpl Z.of_nat at 2; lia.
Qed.

Lemma decimal_digits (n : nat) : all_digits (PatchEngine.decimal n) = true.
Proof. apply string_of_uint_digits. Qed.

Lemma decimal_nonempty (n : nat) : PatchEngine.decimal n <> "".
Proof.
  unfold PatchEngine.decimal.
  rewrite <- (DecimalNat.Unsigned.of_to n) at 1.
  rewrite DecimalNat.Unsigned.to_of.
  pose proof (DecimalFacts.unorm_nonnil (Nat.to_uint n)) as H.
  destruct (Decimal.unorm (Nat.to_uint n)); [congruence|..]; discriminate.
Qed.

Lemma parseInt_decimal (n : nat) : parseInt (PatchEngine.decimal n) = Z.of_nat n.
Proof.
  unfold parseInt, PatchEngine.decimal.
  change 0%Z with (Z.of_nat 0). rewrite string_of_uint_value.
  f_equal. apply DecimalNat.Unsigned.of_to.
Qed.

Lemma opt_count_append (n : nat) (rest : string) :
  no_digit_ahead rest = true ->
  opt_count ("," ++ PatchEngine.decimal n ++ rest) = rest.
Proof.
  intros H. unfold opt_count. rewrite literal_append.
  rewrite digits1_append; auto using decimal_nonempty, decimal_digits.
Qed.

(** [computeLineNumbers] reads the two start lines off the header that
    the patch engine writes. *)
Lemma hunk_start_header (oldStart oldCount newStart newCount : nat) :
  hunk_start (PatchEngine.header oldStart oldCount newStart newCount) =
  Some (Z.of_nat oldStart, Z.of_nat newStart).
Proof.
  unfold hunk_start, PatchEngine.header.
  assert (M : match_here
                ("@@ -" ++ PatchEngine.decimal oldStart ++ "," ++
                 PatchEngine.decimal oldCount ++ " +" ++
                 PatchEngine.decimal newStart ++ "," ++
                 PatchEngine.decimal newCount ++ " @@") =
              Some (PatchEngine.decimal oldStart, PatchEngine.decimal newStart)).
  { unfold match_here. rewrite literal_append.
    rewrite digits1_append; auto using decimal_nonempty, decimal_digits.
    rewrite opt_count_append by reflexivity.
    rewrite literal_append.
    rewrite digits1_append; auto using decimal_nonempty, decimal_digits.
    rewrite opt_count_append by reflexivity.
    reflexivity. }
  assert (U : forall text r, match_here text = Some r -> hunk_match text = Some r).
  { intros text r E. destruct text; cbn [hunk_match]; now rewrite E. }
  rewrite (U _ _ M). now rewrite !parseInt_decimal.
Qed.

(** ** Paths *)

Lemma path_eqb_eq (p q : Path) : path_eqb p q = true <-> p = q.
Proof.
  revert q. induction p as [|x p IH]; intros [|y q]; simpl;
    try (split; [discriminate|congruence]); [tauto|].
  rewrite andb_true_iff, String.eqb_eq, IH. split.
  - intros [-> ->]. reflexivity.
  - intros H. inversion H. auto.
Qed.

Lemma path_eqb_refl (p : Path) : path_eqb p p = true.
Proof. now apply path_eqb_eq. Qed.

(** ** FileStore *)

Lemma set_node_same (fs : FS) (p : Path) (n : option Node) :
  set_node fs p n p = n.
Proof. unfold set_node. now rewrite path_eqb_refl. Qed.

Lemma mkdirs_only_dirs (fs : FS) (root p : Path) :
  only_dirs_added fs (FileStore.mkdirs fs root p).
Proof.
  intros q. unfold FileStore.mkdirs, present.
  destruct (descendant root q && is_prefix q p && negb (path_eqb q p));
    simpl; [|now left].
  destruct (fs q); simpl; [now left|now right].
Qed.

Lemma mkdirs_target (fs : FS) (root p : Path) :
  FileStore.mkdirs fs root p p = fs p.
Proof.
  unfold FileStore.mkdirs. rewrite path_eqb_refl. simpl.
  now rewrite !andb_false_r.
Qed.

(** ** The patch engine: all or nothing *)

Lemma only_dirs_added_refl (fs : FS) : only_dirs_added fs fs.
Proof. intros q. now left. Qed.

Lemma only_dirs_added_files (fs fs' : FS) :
  only_dirs_added fs fs' -> forall q, file_at fs' q = file_at fs q.
Proof.
  intros H q. unfold file_at. destruct (H q) as [-> | [-> ->]]; reflexivity.
Qed.

Lemma only_dirs_added_canonicalize (fs fs' : FS) (limit : nat) :
  only_dirs_added fs fs' ->
  forall resolved todo,
    PathGuard.canonicalize limit fs' resolved todo =
    PathGuard.canonicalize limit fs resolved todo.
Proof.
  intros H. induction limit as [|limit IH]; intros resolved todo;
    destruct todo as [|seg rest]; try reflexivity.
  simpl.
  destruct (String.eqb seg "" || String.eqb seg "."); [apply IH|].
  destruct (String.eqb seg ".."); [apply IH|].
  destruct (H (resolved ++ [seg])%list) as [-> | [-> ->]]; [|apply IH].
  destruct (fs (resolved ++ [seg])%list) as [[t| |[|] t]|]; apply IH.
Qed.

Lemma only_dirs_added_resolve (fs fs' : FS) (limit : nat) (root : Path)
      (path : string) :
  only_dirs_added fs fs' ->
  PathGuard.resolve limit fs' root path = PathGuard.resolve limit fs root path.
Proof.
  intros H. unfold PathGuard.resolve.
  now rewrite (only_dirs_added_canonicalize fs fs' limit H).
Qed.

(** A write that fails leaves every file as it was, the target
    included; at most it leaves directories that it made. *)
Lemma write_failure (env : FileStore.Env) (fault : Fault) (fs fs' : FS)
      (root : Path) (path text : string) (e : Error) :
  FileStore.write env fault fs root path text = (Failure e, fs') ->
  only_dirs_added fs fs' /\
  (forall p, PathGuard.resolve (FileStore.limit env) fs root path = Success p ->
             fs' p = fs p).
Proof.
  unfold FileStore.write.
  destruct (PathGuard.resolve (FileStore.limit env) fs root path) as [p|e0] eqn:R.
  2:{ intros H. inversion H; subst. split; [apply only_dirs_added_refl|discriminate]. }
  set (fs1 := FileStore.mkdirs fs root p).
  set (tmp := FileStore.sibling p (FileStore.temp_name env)).
  assert (Keep : forall g : FS, (forall q, g q = fs1 q) ->
                 only_dirs_added fs g /\
                 (forall p0, Success p = Success p0 -> g p0 = fs p0)).
  { intros g Hg. split.
    - intros q. rewrite Hg. apply mkdirs_only_dirs.
    - intros p0 E. inversion E; subst p0. rewrite Hg. apply mkdirs_target. }
  assert (Undo : forall n, present fs1 tmp = false ->
                 forall q, set_node (set_node fs1 tmp n) tmp None q = fs1 q).
  { intros n Hp q. unfold set_node at 1.
    destruct (path_eqb q tmp) eqn:E.
    - apply path_eqb_eq in E. subst q. unfold present in Hp.
      now destruct (fs1 tmp).
    - unfold set_node. now rewrite E. }
  destruct fault; intros H;
    try (inversion H; subst; split;
         [apply only_dirs_added_refl | reflexivity]);
    try (inversion H; subst; now apply Keep);
    destruct (present fs1 tmp) eqn:P;
    try (inversion H; subst; now apply Keep);
    try discriminate;
    inversion H; subst; apply Keep; now apply Undo.
Qed.

Lemma remove_failure (env : FileStore.Env) (fault : Fault) (fs fs' : FS)
      (root : Path) (path : string) (e : Error) :
  FileStore.remove env fault fs root path = (Failure e, fs') -> fs' = fs.
Proof.
  unfold FileStore.remove.
  destruct (PathGuard.resolve (FileStore.limit env) fs root path) as [p|e0];
    [|intros H; now inversion H].
  destruct (present fs p); [|intros H; now inversion H].
  destruct fault; intros H; now inversion H.
Qed.

Lemma read_after_failure (env : FileStore.Env) (fs fs' : FS) (root : Path)
      (path : string) :
  only_dirs_added fs fs' ->
  (forall p, PathGuard.resolve (FileStore.limit env) fs root path = Success p ->
             fs' p = fs p) ->
  FileStore.read env fs' root path = FileStore.read env fs root path.
Proof.
  intros H T. unfold FileStore.read.
  rewrite (only_dirs_added_resolve fs fs' _ root path H).
  destruct (PathGuard.resolve (FileStore.limit env) fs root path) as [p|e] eqn:R;
    [|reflexivity].
  now rewrite (T p eq_refl).
Qed.

Lemma validated_resolves (cfg : PatchEngine.Settings) (fs : FS) (root : Path)
      (op : PatchEngine.Operation) (old : string) :
  PatchEngine.validate cfg fs root op = PatchEngine.Validated old ->
  exists p,
    PathGuard.resolve (FileStore.limit (PatchEngine.store cfg)) fs root
                      (PatchEngine.path op) = Success p /\
    match PatchEngine.kind op with
    | PatchEngine.create_file => fs p = None /\ old = ""
    | _ => fs p = Some (File old)
    end.
Proof.
  unfold PatchEngine.validate, FileStore.read, present.
  destruct (PathGuard.resolve (FileStore.limit (PatchEngine.store cfg)) fs root
              (PatchEngine.path op)) as [p|e]; [|discriminate].
  intros H. exists p. split; [reflexivity|].
  destruct (PatchEngine.kind op); destruct (fs p) as [[t| |a t]|];
    try discriminate; inversion H; auto.
Qed.

Lemma validate_cases (cfg : PatchEngine.Settings) (fs : FS) (root : Path)
      (op : PatchEngine.Operation) :
  (exists old, PatchEngine.validate cfg fs root op = PatchEngine.Validated old) \/
  (exists e, PatchEngine.validate cfg fs root op = PatchEngine.Rejected e).
Proof.
  unfold PatchEngine.validate.
  destruct (PathGuard.resolve _ fs root (PatchEngine.path op)); [|eauto].
  destruct (PatchEngine.kind op); destruct (present fs a); eauto;
    destruct (FileStore.read _ fs root (PatchEngine.path op)); eauto.
Qed.

Lemma write_struck (env : FileStore.Env) (fault : Fault) (fs : FS)
      (root : Path) (path text : string) (p : Path) (k : PatchEngine.Kind) :
  PathGuard.resolve (FileStore.limit env) fs root path = Success p ->
  k <> PatchEngine.delete_file -> strikes fault k = true ->
  fst (FileStore.write env fault fs root path text) = Failure FilesystemError.
Proof.
  intros R Hk S. unfold FileStore.write. rewrite R.
  destruct k; try congruence; destruct fault; try discriminate;
    try reflexivity;
    destruct (present (FileStore.mkdirs fs root p)
                      (FileStore.sibling p (FileStore.temp_name env)));
    reflexivity.
Qed.

Lemma write_success (env : FileStore.Env) (fault : Fault) (fs fs' : FS)
      (root : Path) (path text : string) (u : unit) :
  FileStore.write env fault fs root path text = (Success u, fs') ->
  exists p, PathGuard.resolve (FileStore.limit env) fs root path = Success p /\
            fs' p = Some (File text).
Proof.
  unfold FileStore.write.
  destruct (PathGuard.resolve (FileStore.limit env) fs root path) as [p|e];
    [|discriminate].
  intros H. exists p. split; [reflexivity|].
  destruct fault; try discriminate;
    destruct (present (FileStore.mkdirs fs root p)
                      (FileStore.sibling p (FileStore.temp_name env)));
    try discriminate; inversion H; apply set_node_same.
Qed.

Lemma remove_success (env : FileStore.Env) (fault : Fault) (fs fs' : FS)
      (root : Path) (path : string) (u : unit) :
  FileStore.remove env fault fs root path = (Success u, fs') ->
  exists p, PathGuard.resolve (FileStore.limit env) fs root path = Success p /\
            fs' p = None.
Proof.
  unfold FileStore.remove.
  destruct (PathGuard.resolve (FileStore.limit env) fs root path) as [p|e];
    [|discriminate].
  intros H. exists p. split; [reflexivity|].
  destruct (present fs p); [|discriminate].
  destruct fault; try discriminate; inversion H; apply set_node_same.
Qed.

(** C6.  A patch ends in [DiffComputed] or in [Rejected].  When a
    filesystem error strikes the file operation of a validated patch
    (step 3), the patch ends in [Rejected].  Whenever a patch ends in
    [Rejected], every file holds what it held before and reading the
    target gives what it gave before; whenever it ends in
    [DiffComputed], the target holds the whole new content (or is gone,
    for a delete) and the result carries the contents before and after:
    a patch is applied wholly or not at all. *)
Theorem patch_wholly_or_not_at_all
        (cfg : PatchEngine.Settings) (fault : Fault) (fs : FS) (root : Path)
        (op : PatchEngine.Operation) :
  let st := fst (PatchEngine.apply_patch cfg fault fs root op) in
  let fs' := snd (PatchEngine.apply_patch cfg fault fs root op) in
  ((exists r, st = PatchEngine.DiffComputed r) \/
   (exists e, st = PatchEngine.Rejected e)) /\
  (forall old,
      PatchEngine.validate cfg fs root op = PatchEngine.Validated old ->
      strikes fault (PatchEngine.kind op) = true ->
      st = PatchEngine.Rejected FilesystemError) /\
  (forall e,
      st = PatchEngine.Rejected e ->
      (forall q, file_at fs' q = file_at fs q) /\
      FileStore.read (PatchEngine.store cfg) fs' root (PatchEngine.path op) =
      FileStore.read (PatchEngine.store cfg) fs root (PatchEngine.path op)) /\
  (forall r,
      st = PatchEngine.DiffComputed r ->
      exists p,
        PathGuard.resolve (FileStore.limit (PatchEngine.store cfg)) fs root
                          (PatchEngine.path op) = Success p /\
        file_at fs' p = expected_after op /\
        PatchEngine.validate cfg fs root op =
        PatchEngine.Validated (PatchEngine.old_content r) /\
        PatchEngine.new_content r = PatchEngine.target_text op).
Proof.
  cbv zeta. unfold PatchEngine.apply_patch, PatchEngine.apply.
  destruct (validate_cases cfg fs root op) as [[old V] | [e V]]; rewrite V.
  2:{ simpl. split; [eauto|]. split; [discriminate|]. split; [|discriminate].
      intros _ _. split; reflexivity. }
  destruct (validated_resolves cfg fs root op old V) as (p & R & K).
  assert (Done : forall fs1 st1,
             st1 = PatchEngine.Applied old ->
             fs1 p = match expected_after op with
                     | Some t => Some (File t) | None => None end ->
             forall r, PatchEngine.compute cfg op st1 = PatchEngine.DiffComputed r ->
             exists p0,
               Success p = Success p0 /\ file_at fs1 p0 = expected_after op /\
               PatchEngine.Validated old =
               PatchEngine.Validated (PatchEngine.old_content r) /\
               PatchEngine.new_content r = PatchEngine.target_text op).
  { intros fs1 st1 -> F r C. simpl in C. inversion C; subst r. simpl.
    exists p. repeat split. unfold file_at. rewrite F.
    now destruct (expected_after op). }
  rewrite R.
  destruct (PatchEngine.kind op) eqn:Kd.
  - pose proof (write_struck (PatchEngine.store cfg) fault fs root
                  (PatchEngine.path op) (PatchEngine.target_text op) p
                  PatchEngine.create_file R) as Struck.
    destruct (FileStore.write (PatchEngine.store cfg) fault fs root
                (PatchEngine.path op) (PatchEngine.target_text op))
      as [[u|e] fs1] eqn:W; simpl in *.
    + split; [eauto|]. split.
      { intros old0 _ S. specialize (Struck ltac:(discriminate) S). discriminate. }
      split; [discriminate|].
      apply write_success in W as (p0 & R0 & F). rewrite R in R0.
      inversion R0; subst p0.
      intros r C. apply (Done fs1 _ eq_refl); [|exact C].
      unfold expected_after. now rewrite Kd.
    + split; [eauto|]. split.
      { intros old0 _ S. specialize (Struck ltac:(discriminate) S). congruence. }
      split; [|discriminate]. intros e0 _.
      apply write_failure in W as [D T]. split.
      * now apply only_dirs_added_files.
      * apply read_after_failure; assumption.
  - pose proof (write_struck (PatchEngine.store cfg) fault fs root
                  (PatchEngine.path op) (PatchEngine.target_text op) p
                  PatchEngine.update_file R) as Struck.
    destruct (FileStore.write (PatchEngine.store cfg) fault fs root
                (PatchEngine.path op) (PatchEngine.target_text op))
      as [[u|e] fs1] eqn:W; simpl in *.
    + split; [eauto|]. split.
      { intros old0 _ S. specialize (Struck ltac:(discriminate) S). discriminate. }
      split; [discriminate|].
      apply write_success in W as (p0 & R0 & F). rewrite R in R0.
      inversion R0; subst p0.
      intros r C. apply (Done fs1 _ eq_refl); [|exact C].
      unfold expected_after. now rewrite Kd.
    + split; [eauto|]. split.
      { intros old0 _ S. specialize (Struck ltac:(discriminate) S). congruence. }
      split; [|discriminate]. intros e0 _.
      apply write_failure in W as [D T]. split.
      * now apply only_dirs_added_files.
      * apply read_after_failure; assumption.
  - destruct (FileStore.remove (PatchEngine.store cfg) fault fs root
                (PatchEngine.path op)) as [[u|e] fs1] eqn:W; simpl in *.
    + split; [eauto|]. split.
      { intros old0 _ S. exfalso. unfold FileStore.remove in W.
        rewrite R in W. unfold present in W. rewrite K in W.
        destruct fault; discriminate. }
      split; [discriminate|].
      apply remove_success in W as (p0 & R0 & F). rewrite R in R0.
      inversion R0; subst p0.
      intros r C. apply (Done fs1 _ eq_refl); [|exact C].
      unfold expected_after. now rewrite Kd.
    + split; [eauto|]. split.
      { intros old0 _ S. f_equal. unfold FileStore.remove in W.
        rewrite R in W. unfold present in W. rewrite K in W.
        destruct fault; try discriminate. now inversion W. }
      split; [|discriminate]. intros e0 _.
      apply remove_failure in W. subst fs1. split; reflexivity.
Qed.

Lemma patch_wholly_or_not_at_all_witness :
  fst (PatchEngine.apply_patch
         (PatchEngine.mkSettings (FileStore.mkEnv 20 ".tmp") 3)
         (write_temp_fails 4)
         (fun q => if path_eqb q ["srv"; "sandbox"; "main.tf"]
                   then Some (File "old text") else None)
         ["srv"; "sandbox"]
         (PatchEngine.mkOperation PatchEngine.update_file "main.tf"
                                  (Some "new text")))
  = PatchEngine.Rejected FilesystemError.
Proof.
  apply (proj1 (proj2 (patch_wholly_or_not_at_all _ _ _ _ _)) "old text");
    vm_compute; reflexivity.
Defined.

(** * More properties of the front end *)

(** ** [split] over a text that arrives in two parts *)

Lemma startsWith_app_long (t u p : string) :
  (String.length p <= String.length t)%nat ->
  startsWith (t ++ u) p = startsWith t p.
Proof.
  unfold startsWith. revert t.
  induction p as [|a p IH]; intros t H.
  - destruct t; destruct u; reflexivity.
  - destruct t as [|b t]; simpl in H; [lia|].
    simpl. destruct (ascii_dec a b); [|reflexivity].
    apply IH. lia.
Qed.

Lemma occurs_length (sep text : string) :
  occurs sep text -> (String.length sep <= String.length text)%nat.
Proof.
  intros (a & b & ->). rewrite !length_append. lia.
Qed.

Lemma split_short (sep text : string) :
  (String.length text < String.length sep)%nat -> split sep text = [text].
Proof.
  intros H. apply split_without_separator.
  intros Ho. apply occurs_length in Ho. lia.
Qed.

Lemma split_singleton (sep text x : string) :
  sep <> "" -> split sep text = [x] -> x = text.
Proof.
  intros Hsep E. pose proof (join_split sep text Hsep) as J.
  rewrite E in J. exact J.
Qed.

Lemma last_default {A : Type} (l : list A) (d d' : A) :
  l <> [] -> last l d = last l d'.
Proof.
  induction l as [|x [|y l] IH]; intros H; [congruence|reflexivity|].
  change (last (y :: l) d = last (y :: l) d'). apply IH. discriminate.
Qed.

Lemma removelast_cons {A : Type} (x : A) (l : list A) :
  l <> [] -> removelast (x :: l) = x :: removelast l.
Proof. destruct l; [congruence|reflexivity]. Qed.

(** The pieces of a text that goes on: those of the first part but the
    last, and then the pieces of that last one with what follows. *)
Lemma split_append (sep t u : string) :
  sep <> "" ->
  split sep (t ++ u) =
  (removelast (split sep t) ++ split sep (last (split sep t) "" ++ u))%list.
Proof.
  intros Hsep.
  remember (String.length t) as n eqn:Hn.
  revert t Hn. induction n as [n IH] using lt_wf_ind. intros t Hn.
  destruct t as [|c t']; [reflexivity|].
  destruct (Nat.lt_ge_cases (String.length (String c t')) (String.length sep))
    as [Short | Long].
  { rewrite (split_short _ _ Short). reflexivity. }
  pose proof (startsWith_app_long (String c t') u sep Long) as P.
  destruct (startsWith (String c t') sep) eqn:E.
  - apply startsWith_inv in E.
    set (r := slice (String.length sep) (String c t')) in *.
    rewrite E. rewrite append_assoc.
    rewrite !split_at_separator by assumption.
    assert (Hr : (String.length r < n)%nat).
    { subst n. rewrite E. rewrite length_append.
      destruct sep; [congruence|simpl; lia]. }
    rewrite (IH _ Hr r eq_refl).
    pose proof (split_from_nonempty sep 0 r) as Ne. fold (split sep r) in Ne.
    rewrite removelast_cons by assumption.
    rewrite last_cons. reflexivity.
  - change (String c t' ++ u) with (String c (t' ++ u)) in *.
    rewrite (split_at_other sep c (t' ++ u) P).
    rewrite (split_at_other sep c t' E).
    destruct (split sep t') as [|x [|y l]] eqn:S.
    + exfalso. apply (split_from_nonempty sep 0 t'). exact S.
    + apply (split_singleton sep t' x Hsep) in S. subst x. simpl.
      symmetry. apply (split_at_other sep c (t' ++ u) P).
    + assert (Ht : (String.length t' < n)%nat) by (subst n; simpl; lia).
      rewrite (IH _ Ht t' eq_refl). rewrite S. reflexivity.
Qed.

(** The last piece holds no separator that the scan would find. *)
Lemma split_last_piece (sep t : string) :
  sep <> "" -> split sep (last (split sep t) "") = [last (split sep t) ""].
Proof.
  intros Hsep. pose proof (split_append sep t "" Hsep) as H.
  rewrite !append_nil_r in H.
  pose proof (split_from_nonempty sep 0 t) as Ne. fold (split sep t) in Ne.
  rewrite (app_removelast_last "" Ne) in H at 1.
  now apply app_inv_head in H.
Qed.

(** ** The stream, parsed as it arrives *)

Lemma removelast_app_nonempty {A : Type} (a b : list A) :
  b <> [] -> removelast (a ++ b) = (a ++ removelast b)%list.
Proof. intros H. now apply removelast_app. Qed.

Lemma last_app_nonempty {A : Type} (a b : list A) (d : A) :
  b <> [] -> last (a ++ b) d = last b d.
Proof.
  intros H. induction a as [|x a IH]; [reflexivity|].
  simpl app. rewrite last_cons.
  rewrite <- IH. apply last_default.
  destruct a; simpl; [assumption|discriminate].
Qed.

(** The events of a buffer that goes on, and what is left of it. *)
Lemma events_append (sep t u : string) :
  sep <> "" ->
  removelast (split sep (t ++ u)) =
  (removelast (split sep t)
     ++ removelast (split sep (last (split sep t) "" ++ u)))%list /\
  last (split sep (t ++ u)) "" =
  last (split sep (last (split sep t) "" ++ u)) "".
Proof.
  intros Hsep. rewrite (split_append sep t u Hsep).
  pose proof (split_from_nonempty sep 0 (last (split sep t) "" ++ u)) as Ne.
  split.
  - now apply removelast_app_nonempty.
  - now apply last_app_nonempty.
Qed.

Lemma concat_cons (x : string) (l : list string) :
  String.concat "" (x :: l) = x ++ String.concat "" l.
Proof. destruct l; simpl; [now rewrite append_nil_r|reflexivity]. Qed.

Lemma blank_line_nonempty : blank_line <> "".
Proof. discriminate. Qed.

Section Streaming.

Variable JSON_parse : string -> outcome json.

Lemma parse_append (buffer chunk : string) :
  parseSseEvents JSON_parse (buffer ++ chunk) =
  ((fst (parseSseEvents JSON_parse buffer)
      ++ fst (parseSseEvents JSON_parse
                (snd (parseSseEvents JSON_parse buffer) ++ chunk)))%list,
   snd (parseSseEvents JSON_parse
          (snd (parseSseEvents JSON_parse buffer) ++ chunk))).
Proof.
  rewrite !parseSseEvents_spec. cbn [fst snd].
  destruct (events_append blank_line buffer chunk blank_line_nonempty)
    as [E L].
  rewrite E, L. now rewrite flat_map_app.
Qed.

Lemma parse_remaining (buffer : string) :
  parseSseEvents JSON_parse (snd (parseSseEvents JSON_parse buffer)) =
  ([], snd (parseSseEvents JSON_parse buffer)).
Proof.
  rewrite (parseSseEvents_spec JSON_parse buffer). cbn [snd].
  rewrite parseSseEvents_spec.
  now rewrite (split_last_piece blank_line buffer blank_line_nonempty).
Qed.

(** X1.  Parsing a buffer that has grown by a chunk gives the calls of
    the buffer as it was, then the calls of what was left of it with the
    chunk appended, and leaves what that second parse leaves: no event is
    lost, repeated or cut in two by the place where the stream was cut.
    What a parse leaves holds no event: parsing it again calls nothing
    and leaves it as it is. *)
Theorem parseSseEvents_append (buffer chunk : string) :
  parseSseEvents JSON_parse (buffer ++ chunk) =
  ((fst (parseSseEvents JSON_parse buffer)
      ++ fst (parseSseEvents JSON_parse
                (snd (parseSseEvents JSON_parse buffer) ++ chunk)))%list,
   snd (parseSseEvents JSON_parse
          (snd (parseSseEvents JSON_parse buffer) ++ chunk))) /\
  parseSseEvents JSON_parse (snd (parseSseEvents JSON_parse buffer)) =
  ([], snd (parseSseEvents JSON_parse buffer)).
Proof.
  split.
  - apply parse_append.
  - apply parse_remaining.
Qed.

Lemma read_stream_from (chunks : list string) (buffer : string) :
  parseSseEvents JSON_parse buffer = ([], buffer) ->
  read_stream JSON_parse chunks buffer =
  parseSseEvents JSON_parse (buffer ++ String.concat "" chunks).
Proof.
  revert buffer. induction chunks as [|chunk rest IH]; intros buffer H.
  - simpl. now rewrite append_nil_r, H.
  - cbn [read_stream]. rewrite concat_cons, <- append_assoc.
    rewrite (parse_append (buffer ++ chunk)).
    destruct (parseSseEvents JSON_parse (buffer ++ chunk)) as [calls remaining]
      eqn:P.
    assert (R : parseSseEvents JSON_parse remaining = ([], remaining)).
    { pose proof (parse_remaining (buffer ++ chunk)) as K.
      now rewrite P in K. }
    rewrite (IH remaining R). cbn [fst snd].
    now destruct (parseSseEvents JSON_parse (remaining ++ String.concat "" rest)).
Qed.

(** X2.  The loop of [sendMessage] that reads the stream chunk by chunk
    makes the handler calls, and ends with the buffer, of one parse of
    the whole stream, however the stream was cut into chunks. *)
Theorem read_stream_whole (chunks : list string) :
  read_stream JSON_parse chunks "" =
  parseSseEvents JSON_parse (String.concat "" chunks).
Proof.
  rewrite (read_stream_from chunks "").
  - reflexivity.
  - reflexivity.
Qed.

(** X3.  An event calls at most one handler, so the calls of a parse are
    at most as many as the events that the buffer holds in full. *)
Theorem parseSseEvents_call_count (buffer : string) :
  (forall part, (List.length (handle_part JSON_parse part) <= 1)%nat) /\
  (List.length (fst (parseSseEvents JSON_parse buffer))
   <= List.length (split blank_line buffer) - 1)%nat.
Proof.
  assert (One : forall part, (List.length (handle_part JSON_parse part) <= 1)%nat).
  { intros part. unfold handle_part.
    destruct (scan_lines (split nl part)) as [e [|d ds]]; [simpl; lia|].
    unfold dispatch, bind.
    repeat match goal with
           | |- context [if ?c then _ else _] => destruct c
           | |- context [match JSON_parse ?x with _ => _ end] =>
               destruct (JSON_parse x)
           | |- context [match get_prop ?v ?k with _ => _ end] =>
               destruct (get_prop v k)
           | |- context [match ?o with Some _ => _ | None => _ end] =>
               destruct o
           end; simpl; lia. }
  split; [exact One|].
  rewrite parseSseEvents_spec. cbn [fst].
  replace (List.length (split blank_line buffer) - 1)%nat
    with (List.length (removelast (split blank_line buffer)))
    by (rewrite removelast_firstn_len, length_firstn; lia).
  induction (removelast (split blank_line buffer)) as [|p ps IH];
    [simpl; lia|].
  simpl. rewrite length_app. specialize (One p). lia.
Qed.

End Streaming.

(** ** The lines of an event *)

Lemma replace_unfold (pat rep text : string) :
  replace pat rep text =
  if startsWith text pat then rep ++ slice (String.length pat) text
  else match text with
       | "" => ""
       | String c t => String c (replace pat rep t)
       end.
Proof. destruct text; reflexivity. Qed.

Lemma replace_at_head (pat x : string) : replace pat "" (pat ++ x) = x.
Proof.
  rewrite replace_unfold, startsWith_append. simpl. apply slice_append.
Qed.

Lemma scan_line_other (st : string * list string) (line : string) :
  startsWith line "event:" || startsWith line "data:" = false ->
  scan_line st line = st.
Proof.
  intros H. apply orb_false_iff in H as [E D].
  unfold scan_line. destruct st. now rewrite E, D.
Qed.

Lemma scan_filter (lines : list string) (st : string * list string) :
  fold_left scan_line lines st =
  fold_left scan_line
            (filter (fun l => startsWith l "event:" || startsWith l "data:")
                    lines) st.
Proof.
  revert st. induction lines as [|l ls IH]; intros st; [reflexivity|].
  cbn [fold_left filter].
  destruct (startsWith l "event:" || startsWith l "data:") eqn:E.
  - cbn [fold_left]. apply IH.
  - rewrite (scan_line_other st l E). apply IH.
Qed.

(** X4.  Within an event, only the lines that start with [event:] or
    [data:] count: comment lines and other fields change nothing.  The
    name of the event is what stands behind [event:] on the last such
    line, without the blank space around it. *)
Theorem event_fields (lines : list string) :
  scan_lines lines =
  scan_lines (filter (fun l => startsWith l "event:" || startsWith l "data:")
                     lines) /\
  (forall pre x post,
      lines = (pre ++ ("event:" ++ x)%string :: post)%list ->
      (forall l, In l post -> startsWith l "event:" = false) ->
      fst (scan_lines lines) = trim x).
Proof.
  split.
  - unfold scan_lines. apply scan_filter.
  - intros pre x post -> Hpost. unfold scan_lines.
    rewrite fold_left_app. cbn [fold_left].
    rewrite (scan_lines_name post _ Hpost).
    destruct (fold_left scan_line pre ("message", [])) as [e ds].
    unfold scan_line.
    rewrite (startsWith_append "event:" x). cbn [fst].
    now rewrite (replace_at_head "event:" x).
Qed.

Lemma event_fields_witness :
  fst (scan_lines [": ping"; "event:  tool_called "; "id: 7"; "data: {}"]) =
  "tool_called".
Proof.
  apply (proj2 (event_fields _) [": ping"] "  tool_called "
                ["id: 7"; "data: {}"] eq_refl).
  intros l [<- | [<- | []]]; reflexivity.
Defined.

Section Dispatch.

Variable JSON_parse : string -> outcome json.

(** X5.  An event named [done] with data calls [onDone] exactly once,
    with the parsed data or, when the data are not JSON, with no
    argument: the end of the answer is never lost.  An event named
    [tool_called], [tool_output] or [reasoning] whose data are not JSON,
    or are the JSON [null], calls no handler. *)
Theorem dispatch_of_bad_data (part eventName : string) (dataLines : list string) :
  scan_lines (split nl part) = (eventName, dataLines) ->
  dataLines <> [] ->
  (eventName = "done" ->
   handle_part JSON_parse part =
   [onDone (match JSON_parse (join nl dataLines) with
            | Ok v => Some v
            | Throw _ => None
            end)]) /\
  (eventName = "tool_called" \/ eventName = "tool_output" \/
   eventName = "reasoning" ->
   (exists e, JSON_parse (join nl dataLines) = Throw e) \/
   JSON_parse (join nl dataLines) = Ok JNull ->
   handle_part JSON_parse part = []).
Proof.
  intros S Hd. unfold handle_part. rewrite S.
  destruct dataLines as [|d ds]; [congruence|]. split.
  - intros ->. unfold dispatch. cbn [String.eqb].
    now destruct (JSON_parse (join nl (d :: ds))).
  - intros He Hj. unfold dispatch, bind.
    destruct He as [-> | [-> | ->]]; destruct Hj as [[e ->] | ->]; reflexivity.
Qed.

End Dispatch.

Lemma dispatch_of_bad_data_witness :
  handle_part reference_parse ("event: tool_called" ++ nl ++ "data: {oops")
  = [].
Proof.
  apply (proj2 (dispatch_of_bad_data reference_parse
                  ("event: tool_called" ++ nl ++ "data: {oops")
                  "tool_called" [" {oops"] eq_refl ltac:(discriminate))).
  - left. reflexivity.
  - left. exists SyntaxError. reflexivity.
Defined.

(** ** The earlier page *)

Lemma legacy_spec (buffer : string) :
  Legacy.parseSseEvents buffer =
  (flat_map Legacy.handle_part (removelast (split blank_line buffer)),
   last (split blank_line buffer) "").
Proof.
  unfold Legacy.parseSseEvents. fold blank_line.
  rewrite (pop_nonempty (split blank_line buffer) "") by apply split_from_nonempty.
  simpl. now rewrite fold_left_calls.
Qed.

(** X6.  The parser of the earlier page keeps the same buffer as the
    parser of the page, and the two agree on every event: an event
    without data calls nothing in either; the data text that the earlier
    one hands to [onDone] is what the later one parses for [onDone]; and
    the data that the earlier one hands to [onData] reach [onText]
    unchanged, unless the event is one of the three kinds that the page
    has learnt since. *)
Theorem legacy_parser_agrees (JSON_parse : string -> outcome json)
        (buffer : string) :
  snd (Legacy.parseSseEvents buffer) = snd (parseSseEvents JSON_parse buffer) /\
  (forall part,
      Legacy.handle_part part = [] -> handle_part JSON_parse part = []) /\
  (forall part data,
      Legacy.handle_part part = [Legacy.onDone data] ->
      handle_part JSON_parse part =
      [onDone (match JSON_parse data with Ok v => Some v | Throw _ => None end)]) /\
  (forall part data,
      Legacy.handle_part part = [Legacy.onData data] ->
      let eventName := fst (scan_lines (split nl part)) in
      eventName <> "tool_called" -> eventName <> "tool_output" ->
      eventName <> "reasoning" ->
      handle_part JSON_parse part = [onText data]).
Proof.
  split; [now rewrite legacy_spec, parseSseEvents_spec|].
  assert (Same : forall part,
             fold_left Legacy.scan_line (split nl part) ("message", []) =
             scan_lines (split nl part)) by reflexivity.
  split; [|split].
  - intros part. unfold Legacy.handle_part, handle_part. rewrite Same.
    destruct (scan_lines (split nl part)) as [e [|d ds]]; [reflexivity|].
    destruct (String.eqb e "done"); discriminate.
  - intros part data. unfold Legacy.handle_part, handle_part. rewrite Same.
    destruct (scan_lines (split nl part)) as [e [|d ds]]; [discriminate|].
    destruct (String.eqb e "done") eqn:E; [|discriminate].
    intros H. injection H as D. change (join nl (d :: ds) = data) in D.
    subst data. unfold dispatch. rewrite E.
    now destruct (JSON_parse (join nl (d :: ds))).
  - intros part data. unfold Legacy.handle_part, handle_part. rewrite Same.
    destruct (scan_lines (split nl part)) as [e [|d ds]]; [discriminate|].
    destruct (String.eqb e "done") eqn:E; [discriminate|].
    intros H. injection H as D. change (join nl (d :: ds) = data) in D.
    subst data. cbn [fst]. intros N1 N2 N3.
    unfold dispatch. rewrite E.
    apply String.eqb_neq in N1, N2, N3. now rewrite N1, N2, N3.
Qed.

Lemma legacy_parser_agrees_witness :
  handle_part reference_parse ("event: delta" ++ nl ++ "data: Hi") =
  [onText " Hi"].
Proof.
  apply (proj2 (proj2 (proj2 (legacy_parser_agrees reference_parse "")))
               ("event: delta" ++ nl ++ "data: Hi") " Hi" eq_refl);
    discriminate.
Defined.

(** X7.  The earlier parser, too, gives for a buffer that has grown by
    a chunk the calls of the buffer as it was and then those of what was
    left with the chunk appended. *)
Theorem legacy_parser_append (buffer chunk : string) :
  Legacy.parseSseEvents (buffer ++ chunk) =
  ((fst (Legacy.parseSseEvents buffer)
      ++ fst (Legacy.parseSseEvents
                (snd (Legacy.parseSseEvents buffer) ++ chunk)))%list,
   snd (Legacy.parseSseEvents (snd (Legacy.parseSseEvents buffer) ++ chunk))).
Proof.
  rewrite !legacy_spec. cbn [fst snd].
  destruct (events_append blank_line buffer chunk blank_line_nonempty)
    as [E L].
  rewrite E, L. now rewrite flat_map_app.
Qed.

Lemma trimStart_blank (text : string) :
  blank text = true -> trimStart text = "".
Proof.
  induction text as [|c t IH]; [reflexivity|]. cbn [blank trimStart].
  intros H. apply andb_true_iff in H as [Hc Ht]. rewrite Hc. now apply IH.
Qed.

Lemma trimStart_not_blank (text : string) :
  blank text = false ->
  exists c t, trimStart text = String c t /\ is_js_space c = false.
Proof.
  induction text as [|c t IH]; [discriminate|]. cbn [blank trimStart].
  destruct (is_js_space c) eqn:E; simpl; [exact IH|]. eauto.
Qed.

Lemma trimEnd_keeps_head (c : ascii) (t : string) :
  is_js_space c = false -> trimEnd (String c t) <> "".
Proof.
  intros H. cbn [trimEnd]. rewrite H. destruct (trimEnd t); discriminate.
Qed.

Lemma trim_blank (text : string) :
  String.eqb (trim text) "" = blank text.
Proof.
  unfold trim. destruct (blank text) eqn:B.
  - now rewrite (trimStart_blank text B).
  - destruct (trimStart_not_blank text B) as (c & t & -> & Hc).
    apply String.eqb_neq. now apply trimEnd_keeps_head.
Qed.

(** X8.  [promptWithFile] leaves the message as it is when the file
    content is empty or blank space only; otherwise the prompt is the
    message followed by the file block, which holds the content
    unchanged between the two markers under a name line, the name
    [main.tf] standing in for an empty file name. *)
Theorem promptWithFile_block (message fileName fileContent : string) :
  (blank fileContent = true ->
   Legacy.promptWithFile message fileName fileContent = message) /\
  (blank fileContent = false ->
   Legacy.promptWithFile message fileName fileContent =
   message ++ nl ++ nl ++ nl ++ "<FILE>" ++ nl ++
   "name: " ++ (if String.eqb fileName "" then "main.tf" else fileName) ++ nl ++
   fileContent ++ nl ++ "</FILE>").
Proof.
  unfold Legacy.promptWithFile. rewrite trim_blank.
  split; intros ->; [reflexivity|].
  unfold join. cbn [String.concat]. unfold nl.
  repeat (rewrite ?append_assoc; cbn [append]). reflexivity.
Qed.

Lemma promptWithFile_block_witness :
  Legacy.promptWithFile "Review this." "" ("  " ++ nl) = "Review this.".
Proof.
  apply (proj1 (promptWithFile_block "Review this." "" ("  " ++ nl))).
  reflexivity.
Defined.

(** ** [getLanguageId] *)

Lemma lower_char_idem (c : ascii) : lower_char (lower_char c) = lower_char c.
Proof.
  destruct c as [[] [] [] [] [] [] [] []]; reflexivity.
Qed.

Lemma lower_char_dot (c : ascii) :
  Ascii.eqb (lower_char c) "."%char = Ascii.eqb c "."%char.
Proof.
  destruct c as [[] [] [] [] [] [] [] []]; reflexivity.
Qed.

Lemma toLowerCase_append (a b : string) :
  toLowerCase (a ++ b) = toLowerCase a ++ toLowerCase b.
Proof. induction a as [|c a IH]; simpl; [reflexivity|now rewrite IH]. Qed.

Lemma toLowerCase_idem (text : string) :
  toLowerCase (toLowerCase text) = toLowerCase text.
Proof.
  induction text as [|c t IH]; simpl; [reflexivity|].
  now rewrite lower_char_idem, IH.
Qed.

Lemma dotless_lower (text : string) : dotless (toLowerCase text) = dotless text.
Proof.
  induction text as [|c t IH]; simpl; [reflexivity|].
  now rewrite lower_char_dot, IH.
Qed.

Lemma startsWith_char (a c : ascii) (t : string) :
  startsWith (String c t) (String a "") = Ascii.eqb a c.
Proof.
  unfold startsWith. cbn [String.prefix].
  destruct (ascii_dec a c) as [->|N].
  - rewrite Ascii.eqb_refl. now destruct t.
  - symmetry. now apply Ascii.eqb_neq.
Qed.

Lemma split_dotless (text : string) :
  dotless text = true -> split "." text = [text].
Proof.
  induction text as [|c t IH]; [reflexivity|]. cbn [dotless].
  intros H. apply andb_true_iff in H as [Hc Ht].
  rewrite split_at_other.
  - now rewrite (IH Ht).
  - rewrite startsWith_char. rewrite Ascii.eqb_sym.
    now apply negb_true_iff in Hc.
Qed.

Lemma cons_head_app (c : ascii) (l m : list string) :
  l <> [] -> cons_head c (l ++ m)%list = (cons_head c l ++ m)%list.
Proof. destruct l; [congruence|reflexivity]. Qed.

(** The pieces around one more separating character. *)
Lemma split_char_append (c : ascii) (a b : string) :
  split (String c "") (a ++ String c b) =
  (split (String c "") a ++ split (String c "") b)%list.
Proof.
  assert (Hsep : String c "" <> "") by discriminate.
  induction a as [|x a IH].
  - apply (split_at_separator (String c "") b Hsep).
  - cbn [append]. destruct (Ascii.eqb c x) eqn:E.
    + apply Ascii.eqb_eq in E. subst x.
      change (String c (a ++ String c b)) with (String c "" ++ (a ++ String c b)).
      change (String c a) with (String c "" ++ a).
      rewrite !split_at_separator by assumption. now rewrite IH.
    + rewrite !split_at_other by (now rewrite startsWith_char).
      rewrite IH. apply cons_head_app. apply split_from_nonempty.
Qed.

Lemma extension_of (a e : string) :
  dotless e = true ->
  nullish (fst (pop (split "." (a ++ "." ++ e)))) "" = e.
Proof.
  intros H. rewrite (pop_nonempty _ "") by apply split_from_nonempty.
  cbn [fst nullish].
  change (a ++ "." ++ e) with (a ++ String "."%char e).
  rewrite (split_char_append "."%char a e), (split_dotless e H).
  apply last_last.
Qed.

Lemma slice_cut (k : nat) (text : string) :
  (k <= String.length text)%nat -> exists pre, text = pre ++ slice k text.
Proof.
  revert text. induction k as [|k IH]; intros text H.
  - exists "". now destruct text.
  - destruct text as [|c t]; simpl in H; [lia|].
    destruct (IH t) as [pre E]; [lia|].
    exists (String c pre). simpl. now rewrite <- E.
Qed.

Lemma endsWith_inv (text suffix : string) :
  endsWith text suffix = true -> exists pre, text = pre ++ suffix.
Proof.
  unfold endsWith. intros H. apply andb_true_iff in H as [L E].
  apply String.eqb_eq in E. apply Nat.leb_le in L.
  destruct (slice_cut (String.length text - String.length suffix) text)
    as [pre P]; [lia|].
  exists pre. now rewrite E in P.
Qed.

(** Only a name with the extension [hcl] can end like the lock file. *)
Lemma lock_file_extension (a e : string) :
  dotless e = true ->
  endsWith (a ++ "." ++ e) ".terraform.lock.hcl" = true -> e = "hcl".
Proof.
  intros H E. apply endsWith_inv in E as [pre P].
  pose proof (extension_of a e H) as X. rewrite P in X.
  change (pre ++ ".terraform.lock.hcl")
    with (pre ++ ".terraform.lock" ++ "." ++ "hcl") in X.
  rewrite <- append_assoc in X.
  rewrite (extension_of (pre ++ ".terraform.lock") "hcl" eq_refl) in X.
  now symmetry.
Qed.

Lemma getLanguageId_of_name (base rest : string) :
  getLanguageId (Some (base ++ "." ++ rest)) =
  language_of_name (toLowerCase base ++ "." ++ toLowerCase rest).
Proof.
  transitivity (language_of_name (toLowerCase (base ++ "." ++ rest))).
  - destruct base; reflexivity.
  - rewrite toLowerCase_append. reflexivity.
Qed.

(** X9.  The language of a path is chosen by what stands behind its
    last dot, whatever the case of the letters: for an extension without
    a dot and other than [hcl], a path [base.ext] has the language of
    the bare name [.ext] in lower case, so the directories and the base
    name play no part. *)
Theorem getLanguageId_by_extension (base ext : string) :
  dotless ext = true ->
  toLowerCase ext <> "hcl" ->
  getLanguageId (Some (base ++ "." ++ ext)) =
  getLanguageId (Some ("." ++ toLowerCase ext)).
Proof.
  intros D N.
  rewrite (getLanguageId_of_name base ext).
  pose proof (getLanguageId_of_name "" (toLowerCase ext)) as R.
  rewrite toLowerCase_idem in R.
  change (getLanguageId (Some ("." ++ toLowerCase ext)) =
          language_of_name ("" ++ "." ++ toLowerCase ext)) in R.
  rewrite R.
  assert (D' : dotless (toLowerCase ext) = true) by now rewrite dotless_lower.
  unfold language_of_name.
  rewrite (extension_of (toLowerCase base) _ D'), (extension_of "" _ D').
  assert (L1 : endsWith (toLowerCase base ++ "." ++ toLowerCase ext)
                        ".terraform.lock.hcl" = false).
  { apply not_true_is_false. intros E.
    apply lock_file_extension in E; [congruence|assumption]. }
  assert (L2 : endsWith ("" ++ "." ++ toLowerCase ext)
                        ".terraform.lock.hcl" = false).
  { apply not_true_is_false. intros E.
    apply lock_file_extension in E; [congruence|assumption]. }
  now rewrite L1, L2.
Qed.

Lemma getLanguageId_by_extension_witness :
  getLanguageId (Some "infra/modules/Network.TF") = getLanguageId (Some ".tf").
Proof.
  apply (getLanguageId_by_extension "infra/modules/Network" "TF");
    [reflexivity|discriminate].
Defined.

(** X10.  Terraform files are shown as HCL: a path that ends in [.tf]
    or [.tfvars], in any case of the letters, has the language [hcl].
    A path that ends in [.hcl] has it only when its name ends in
    [.terraform.lock.hcl]; any other [.hcl] file is plain text. *)
Theorem getLanguageId_terraform (base ext : string) :
  (toLowerCase ext = "tf" \/ toLowerCase ext = "tfvars" ->
   getLanguageId (Some (base ++ "." ++ ext)) = "hcl") /\
  (toLowerCase ext = "hcl" ->
   getLanguageId (Some (base ++ "." ++ ext)) =
   if endsWith (toLowerCase (base ++ "." ++ ext)) ".terraform.lock.hcl"
   then "hcl" else "plaintext").
Proof.
  rewrite (getLanguageId_of_name base ext).
  rewrite (toLowerCase_append base ("." ++ ext)).
  change (toLowerCase ("." ++ ext)) with ("." ++ toLowerCase ext).
  unfold language_of_name.
  split.
  - intros [E | E]; rewrite E.
    + now rewrite (extension_of (toLowerCase base) "tf" eq_refl).
    + now rewrite (extension_of (toLowerCase base) "tfvars" eq_refl).
  - intros E. rewrite E.
    rewrite (extension_of (toLowerCase base) "hcl" eq_refl). reflexivity.
Qed.

Lemma getLanguageId_terraform_witness :
  getLanguageId (Some "envs/prod/main.hcl") = "plaintext".
Proof.
  exact (proj2 (getLanguageId_terraform "envs/prod/main" "hcl") eq_refl).
Defined.

(** X11.  [getLanguageId] does not tell capital from small letters: a
    path and the same path in lower case have the same language. *)
Theorem getLanguageId_ignores_case (path : string) :
  getLanguageId (Some path) = getLanguageId (Some (toLowerCase path)).
Proof.
  destruct path as [|c t]; [reflexivity|].
  cbn [toLowerCase getLanguageId].
  now rewrite lower_char_idem, toLowerCase_idem.
Qed.

(** ** The columns of [SplitDiffView] *)

Lemma number_rows_texts (idx : Z) (ls : list string) :
  map snd (number_rows idx ls) = ls.
Proof.
  revert idx. induction ls as [|l ls IH]; intros idx; simpl; [reflexivity|].
  now rewrite IH.
Qed.

Lemma number_rows_numbers (idx : Z) (ls : list string) :
  map fst (number_rows idx ls) =
  map (fun k => (idx + Z.of_nat k)%Z) (seq 1 (List.length ls)).
Proof.
  revert idx. induction ls as [|l ls IH]; intros idx; [reflexivity|].
  cbn [number_rows map List.length seq fst]. f_equal.
  rewrite IH. rewrite <- (seq_shift (List.length ls) 1), map_map.
  apply map_ext. intros k. lia.
Qed.

(** X12.  A column of the split view shows the whole content: its rows,
    joined by line feeds, are the content, and they are numbered 1, 2, 3
    and so on without a gap. *)
Theorem split_column_shows_content (text : string) :
  join nl (map snd (rows (split_column text))) = text /\
  map fst (rows (split_column text)) =
  map Z.of_nat (seq 1 (List.length (rows (split_column text)))).
Proof.
  unfold split_column. cbn [rows]. split.
  - rewrite number_rows_texts. apply join_split. discriminate.
  - rewrite number_rows_numbers, number_rows_length.
    apply map_ext. intros k. lia.
Qed.

(** ** [computeLineNumbers], further *)

(** X13.  Line numbers run on without a gap: of two lines of the old
    file with nothing between them but [add] lines and hunk lines
    without a header, when the first carries the old number [a] the
    second carries [a + 1]; likewise for two lines of the new file with
    nothing between them but [remove] lines and hunk lines without a
    header.  This is for numbers [a + 1] that are safe integers, at most
    [2^53 - 1], up to which the counters count exactly. *)
Theorem computeLineNumbers_consecutive
        (pre : list DiffLine) (l1 : DiffLine) (mid : list DiffLine)
        (l2 : DiffLine) (post : list DiffLine) :
  let numbers := computeLineNumbers (pre ++ l1 :: mid ++ l2 :: post)%list in
  let i := List.length pre in
  let j := (List.length pre + 1 + List.length mid)%nat in
  (in_old l1 = true -> in_old l2 = true -> forallb keeps_old mid = true ->
   forall r1 a,
     nth_error numbers i = Some r1 -> oldLine r1 = Some a ->
     safe_integer (a + 1) = true ->
     exists r2, nth_error numbers j = Some r2 /\ oldLine r2 = Some (a + 1)%Z) /\
  (in_new l1 = true -> in_new l2 = true -> forallb keeps_new mid = true ->
   forall r1 a,
     nth_error numbers i = Some r1 -> newLine r1 = Some a ->
     safe_integer (a + 1) = true ->
     exists r2, nth_error numbers j = Some r2 /\ newLine r2 = Some (a + 1)%Z).
Proof.
  cbv zeta. unfold computeLineNumbers.
  set (st := run_counters (mkCounters 0 0) pre).
  assert (E1 : nth_error (number_lines (mkCounters 0 0)
                            (pre ++ l1 :: mid ++ l2 :: post)%list)
                         (List.length pre) =
               Some (snd (number_line st l1)))
    by apply number_lines_at.
  assert (E2 : nth_error (number_lines (mkCounters 0 0)
                            (pre ++ l1 :: mid ++ l2 :: post)%list)
                         (List.length pre + 1 + List.length mid) =
               Some (snd (number_line
                            (run_counters (fst (number_line st l1)) mid) l2))).
  { replace (pre ++ l1 :: mid ++ l2 :: post)%list
      with ((pre ++ l1 :: mid) ++ l2 :: post)%list
      by (rewrite <- app_assoc; reflexivity).
    replace (List.length pre + 1 + List.length mid)%nat
      with (List.length (pre ++ l1 :: mid)%list)
      by (rewrite length_app; simpl; lia).
    rewrite number_lines_at. do 2 f_equal.
    change (pre ++ l1 :: mid)%list with (pre ++ [l1] ++ mid)%list.
    now rewrite !run_counters_app. }
  rewrite E1, E2. split; intros H1 H2 Hmid r1 a R A _;
    injection R as <-; eexists; (split; [reflexivity|]).
  - pose proof (run_counters_keeps_old (fst (number_line st l1)) mid Hmid) as K.
    unfold number_line, in_old in *.
    destruct (type l1); try discriminate; destruct (type l2); try discriminate;
      simpl in *; rewrite K; injection A as <-; reflexivity.
  - pose proof (run_counters_keeps_new (fst (number_line st l1)) mid Hmid) as K.
    unfold number_line, in_new in *.
    destruct (type l1); try discriminate; destruct (type l2); try discriminate;
      simpl in *; rewrite K; injection A as <-; reflexivity.
Qed.

Lemma computeLineNumbers_consecutive_witness :
  exists r2,
    nth_error (computeLineNumbers
                 [ mkDiffLine hunk "@@ -7,2 +7,3 @@"; mkDiffLine context "a";
                   mkDiffLine add "b"; mkDiffLine context "c" ]) 3 = Some r2 /\
    oldLine r2 = Some 8%Z.
Proof.
  exact (proj1 (computeLineNumbers_consecutive
                  [mkDiffLine hunk "@@ -7,2 +7,3 @@"] (mkDiffLine context "a")
                  [mkDiffLine add "b"] (mkDiffLine context "c") [])
               eq_refl eq_refl eq_refl
               (mkLineNumbers (Some 7%Z) (Some 7%Z)) 7%Z
               eq_refl eq_refl eq_refl).
Defined.

Lemma numeral_decimal (n : nat) : numeral n = PatchEngine.decimal n.
Proof. reflexivity. Qed.

Lemma opt_count_text (count : option nat) (rest : string) :
  no_digit_ahead rest = true ->
  match rest with String ","%char _ => False | _ => True end ->
  opt_count (count_text count ++ rest) = rest.
Proof.
  intros H C. destruct count as [k|].
  - unfold count_text. rewrite append_assoc, numeral_decimal.
    now apply opt_count_append.
  - cbn [count_text append]. unfold opt_count.
    destruct rest as [|c t]; [reflexivity|].
    cbn [literal]. destruct (Ascii.eqb "," c) eqn:E; [|reflexivity].
    apply Ascii.eqb_eq in E. subst c. destruct C.
Qed.

Lemma hunk_start_header_text (oldStart : nat) (oldCount : option nat)
      (newStart : nat) (newCount : option nat) (tail : string) :
  hunk_start (header_text oldStart oldCount newStart newCount ++ tail) =
  Some (Z.of_nat oldStart, Z.of_nat newStart).
Proof.
  unfold hunk_start, header_text.
  assert (M : match_here
                (("@@ -" ++ numeral oldStart ++ count_text oldCount ++
                  " +" ++ numeral newStart ++ count_text newCount ++ " @@")
                   ++ tail) =
              Some (numeral oldStart, numeral newStart)).
  { rewrite !append_assoc. unfold match_here. rewrite literal_append.
    rewrite numeral_decimal at 1.
    rewrite digits1_append; auto using decimal_nonempty, decimal_digits;
      [|destruct oldCount; reflexivity].
    rewrite opt_count_text by (simpl; auto).
    rewrite literal_append.
    rewrite (numeral_decimal newStart) at 1.
    rewrite digits1_append; auto using decimal_nonempty, decimal_digits;
      [|destruct newCount; reflexivity].
    rewrite opt_count_text by (simpl; auto).
    rewrite (literal_append " @@" tail). reflexivity. }
  assert (U : forall text r, match_here text = Some r -> hunk_match text = Some r).
  { intros text r E. destruct text; cbn [hunk_match]; now rewrite E. }
  rewrite (U _ _ M). now rewrite !numeral_decimal, !parseInt_decimal.
Qed.

(** X14.  [computeLineNumbers] reads the header format that its comment
    documents: behind a hunk line whose content starts with
    [@@ -a,b +c,d @@], with or without the two counts and whatever
    follows the header, the next line carries the old number [a] if it
    is a line of the old file and the new number [c] if it is a line of
    the new file.  This is for every start that is a safe integer, at
    most [2^53 - 1], which [parseInt] reads exactly. *)
Theorem computeLineNumbers_reads_header
        (pre : list DiffLine) (oldStart : nat) (oldCount : option nat)
        (newStart : nat) (newCount : option nat) (tail : string)
        (l : DiffLine) (post : list DiffLine) :
  exists r,
    nth_error
      (computeLineNumbers
         (pre ++ mkDiffLine hunk
                   (header_text oldStart oldCount newStart newCount ++ tail)
              :: l :: post)%list)
      (List.length pre + 1) = Some r /\
    (in_old l = true -> safe_integer (Z.of_nat oldStart) = true ->
     oldLine r = Some (Z.of_nat oldStart)) /\
    (in_new l = true -> safe_integer (Z.of_nat newStart) = true ->
     newLine r = Some (Z.of_nat newStart)).
Proof.
  set (h := mkDiffLine hunk
              (header_text oldStart oldCount newStart newCount ++ tail)).
  unfold computeLineNumbers.
  replace (pre ++ h :: l :: post)%list with ((pre ++ [h]) ++ l :: post)%list
    by (rewrite <- app_assoc; reflexivity).
  replace (List.length pre + 1)%nat with (List.length (pre ++ [h])%list)
    by (rewrite length_app; reflexivity).
  rewrite number_lines_at. eexists. split; [reflexivity|].
  rewrite run_counters_app.
  assert (K : run_counters (run_counters (mkCounters 0 0) pre) [h] =
              mkCounters (Z.of_nat oldStart - 1) (Z.of_nat newStart - 1)).
  { apply (number_line_header _ h); [reflexivity|].
    apply hunk_start_header_text. }
  rewrite K. unfold number_line, in_old, in_new.
  split; intros H _; destruct (type l); try discriminate; simpl; f_equal; lia.
Qed.

Lemma computeLineNumbers_reads_header_witness :
  exists r,
    nth_error
      (computeLineNumbers
         [ mkDiffLine hunk "@@ -120 +118,2 @@ resource";
           mkDiffLine remove "x" ]) 1 = Some r /\
    oldLine r = Some 120%Z.
Proof.
  destruct (computeLineNumbers_reads_header
              [] 120 None 118 (Some 2%nat) " resource" (mkDiffLine remove "x") [])
    as (r & E & Ho & _).
  exists r. split; [exact E|]. apply Ho; reflexivity.
Defined.

(** ** The panes *)

Lemma left_step_bounds (st : Z * Z) (x : Z) :
  (160 <= snd (handleMouseMove left_side handleLeftResize st x) <= 400)%Z.
Proof. destruct st as [s w]. unfold handleMouseMove, handleLeftResize. simpl. lia. Qed.

Lemma right_step_bounds (st : Z * Z) (x : Z) :
  (240 <= snd (handleMouseMove right_side handleRightResize st x) <= 460)%Z.
Proof. destruct st as [s w]. unfold handleMouseMove, handleRightResize. simpl. lia. Qed.

(** X15.  However the dividers are dragged, the panes keep their
    bounds: a left pane that is between 160 and 400 pixels wide stays so
    after every drag, and a right pane between 240 and 460 pixels. *)
Theorem drag_within_bounds (positions : list Z) (startX w : Z) :
  ((160 <= w <= 400)%Z ->
   (160 <= snd (drag left_side handleLeftResize (startX, w) positions) <= 400)%Z) /\
  ((240 <= w <= 460)%Z ->
   (240 <= snd (drag right_side handleRightResize (startX, w) positions) <= 460)%Z).
Proof.
  unfold drag. split; intros H.
  - change w with (snd (startX, w)) in H. revert H.
    generalize (startX, w). induction positions as [|x xs IH]; intros st H;
      [exact H|].
    cbn [fold_left]. apply IH, left_step_bounds.
  - change w with (snd (startX, w)) in H. revert H.
    generalize (startX, w). induction positions as [|x xs IH]; intros st H;
      [exact H|].
    cbn [fold_left]. apply IH, right_step_bounds.
Qed.

Lemma drag_within_bounds_witness :
  (160 <= snd (drag left_side handleLeftResize (500, 240) [900; 100; 520]) <= 400)%Z.
Proof.
  apply (proj1 (drag_within_bounds [900; 100; 520] 500 240))%Z. lia.
Defined.

(** X16.  While the width that the mouse asks for stays within the
    bounds, a pane follows the mouse: after the drag the left pane has
    grown by the way the mouse has gone to the right, the right pane by
    the way it has gone to the left, and the last position is
    remembered. *)
Theorem drag_follows_mouse (positions : list Z) (startX w : Z) :
  ((forall x, In x positions -> 160 <= w + (x - startX) <= 400)%Z ->
   drag left_side handleLeftResize (startX, w) positions =
   (last positions startX, w + (last positions startX - startX))%Z) /\
  ((forall x, In x positions -> 240 <= w - (x - startX) <= 460)%Z ->
   drag right_side handleRightResize (startX, w) positions =
   (last positions startX, w - (last positions startX - startX))%Z).
Proof.
  unfold drag. split.
  - revert startX w. induction positions as [|x xs IH]; intros startX w H.
    + simpl. f_equal. lia.
    + cbn [fold_left]. rewrite last_cons.
      unfold handleMouseMove at 2. unfold handleLeftResize at 2.
      pose proof (H x (or_introl eq_refl)) as Hx.
      replace (Z.max 160 (Z.min 400 (w + (x - startX))))
        with (w + (x - startX))%Z by lia.
      rewrite IH.
      * f_equal. lia.
      * intros y Hy. specialize (H y (or_intror Hy)). lia.
  - revert startX w. induction positions as [|x xs IH]; intros startX w H.
    + simpl. f_equal. lia.
    + cbn [fold_left]. rewrite last_cons.
      unfold handleMouseMove at 2. unfold handleRightResize at 2.
      pose proof (H x (or_introl eq_refl)) as Hx.
      replace (Z.max 240 (Z.min 460 (w + - (x - startX))))
        with (w - (x - startX))%Z by lia.
      rewrite IH.
      * f_equal. lia.
      * intros y Hy. specialize (H y (or_intror Hy)). lia.
Qed.

Lemma drag_follows_mouse_witness :
  drag left_side handleLeftResize (500, 240)%Z [510; 530; 505]%Z =
  (505, 245)%Z.
Proof.
  apply (proj1 (drag_follows_mouse [510; 530; 505] 500 240))%Z.
  intros x [<- | [<- | [<- | []]]]; lia.
Defined.

(** ** The file tree *)






(** ** The handlers of [sendMessage] *)

Lemma filter_update_same (sid : string)
      (change : Chat.ChatMessage -> Chat.ChatMessage)
      (prev : list Chat.ChatMessage) :
  (forall m, Chat.id (change m) = Chat.id m) ->
  filter (has_id sid) (Chat.update_message sid change prev) =
  map change (filter (has_id sid) prev).
Proof.
  intros Hid. unfold Chat.update_message, has_id.
  induction prev as [|m ms IH]; [reflexivity|]. cbn [map filter].
  destruct (String.eqb (Chat.id m) sid) eqn:E.
  - rewrite Hid, E. cbn [map]. now rewrite IH.
  - rewrite E. exact IH.
Qed.

Lemma filter_update_other (sid target : string)
      (change : Chat.ChatMessage -> Chat.ChatMessage)
      (prev : list Chat.ChatMessage) :
  (forall m, Chat.id (change m) = Chat.id m) ->
  target <> sid ->
  filter (has_id sid) (Chat.update_message target change prev) =
  filter (has_id sid) prev.
Proof.
  intros Hid N. unfold Chat.update_message, has_id.
  induction prev as [|m ms IH]; [reflexivity|]. cbn [map filter].
  destruct (String.eqb (Chat.id m) target) eqn:E.
  - rewrite Hid. apply String.eqb_eq in E.
    assert (F : String.eqb (Chat.id m) sid = false)
      by (apply String.eqb_neq; congruence).
    rewrite F. exact IH.
  - destruct (String.eqb (Chat.id m) sid); [now rewrite IH|exact IH].
Qed.

Lemma filter_snoc_other (sid : string) (prev : list Chat.ChatMessage)
      (m : Chat.ChatMessage) :
  Chat.id m <> sid ->
  filter (has_id sid) (prev ++ [m])%list = filter (has_id sid) prev.
Proof.
  intros N. rewrite filter_app. cbn [filter]. unfold has_id at 2.
  apply String.eqb_neq in N. rewrite N. apply app_nil_r.
Qed.

Lemma streamed_text_cons_text (text fresh : string)
      (rest : list (Chat.StreamEvent * string)) :
  streamed_text ((Chat.Text text, fresh) :: rest) = text ++ streamed_text rest.
Proof. unfold streamed_text. cbn [flat_map fst app]. apply concat_cons. Qed.

Section ChatRun.

Variable JSON_parse : string -> outcome json.
Variable sid : string.

Lemma handle_invariant (st : Chat.State) (ev : Chat.StreamEvent * string) :
  snd ev <> sid -> run_invariant sid st ->
  run_invariant sid (Chat.handle JSON_parse sid st ev).
Proof.
  destruct ev as [event fresh]. cbn [snd]. intros Nf [F M].
  destruct event as [text|name args callId|output callId|summary|payload];
    cbn [Chat.handle].
  - split; [|exact M]. unfold Chat.onText.
    cbn [Chat.messages Chat.hasAddedStreamingMessage Chat.fullText].
    destruct (Chat.hasAddedStreamingMessage st).
    + rewrite filter_update_same by reflexivity. rewrite F. reflexivity.
    + rewrite filter_app, F. cbn [filter app]. unfold has_id.
      cbn [Chat.id]. now rewrite String.eqb_refl.
  - split.
    + unfold Chat.onToolCall.
      cbn [Chat.messages Chat.hasAddedStreamingMessage Chat.fullText].
      rewrite filter_snoc_other by exact Nf. exact F.
    + intros k i. unfold Chat.onToolCall, Chat.map_set.
      cbn [Chat.toolMessageIdsByCallId].
      destruct (String.eqb k _); [|apply M].
      intros H. inversion H. congruence.
  - split; [|exact M]. unfold Chat.onToolOutput.
    cbn [Chat.messages Chat.hasAddedStreamingMessage Chat.fullText].
    destruct (Chat.lookup_call (Chat.toolMessageIdsByCallId st) callId)
      as [i|] eqn:L.
    + destruct (Chat.nonempty i).
      * rewrite filter_update_other; [exact F|reflexivity|].
        unfold Chat.lookup_call in L. destruct callId as [c|]; [|discriminate].
        destruct (Chat.nonempty c); [|discriminate]. now apply (M c).
      * rewrite filter_snoc_other by exact Nf. exact F.
    + rewrite filter_snoc_other by exact Nf. exact F.
  - split; [|exact M]. unfold Chat.onReasoning, Chat.setMessages.
    cbn [Chat.messages Chat.hasAddedStreamingMessage Chat.fullText].
    rewrite filter_snoc_other by exact Nf. exact F.
  - split; [exact F|exact M].
Qed.

Lemma run_invariant_kept (events : list (Chat.StreamEvent * string))
      (st : Chat.State) :
  (forall ev, In ev events -> snd ev <> sid) -> run_invariant sid st ->
  run_invariant sid (Chat.run JSON_parse sid st events).
Proof.
  unfold Chat.run. revert st.
  induction events as [|ev rest IH]; intros st H I; [exact I|].
  cbn [fold_left]. apply IH.
  - intros e He. apply H. now right.
  - apply handle_invariant; [apply H; now left|exact I].
Qed.

Lemma run_text (events : list (Chat.StreamEvent * string)) (st : Chat.State) :
  Chat.fullText (Chat.run JSON_parse sid st events) =
  Chat.fullText st ++ streamed_text events /\
  Chat.hasAddedStreamingMessage (Chat.run JSON_parse sid st events) =
  Chat.hasAddedStreamingMessage st || has_text events.
Proof.
  unfold Chat.run. revert st.
  induction events as [|[event fresh] rest IH]; intros st.
  - cbn. now rewrite append_nil_r, orb_false_r.
  - cbn [fold_left]. destruct (IH (Chat.handle JSON_parse sid st (event, fresh)))
      as [T A]. rewrite T, A.
    destruct event; cbn [Chat.handle]; try (split; reflexivity).
    + rewrite streamed_text_cons_text. unfold Chat.onText.
      cbn [Chat.fullText Chat.hasAddedStreamingMessage has_text existsb fst].
      split; [apply append_assoc|now rewrite orb_true_r].
Qed.

Lemma start_invariant (prev : Chat.State) (fresh userMessage : string) :
  (forall m, In m (Chat.messages prev) -> Chat.id m <> sid) ->
  fresh <> sid ->
  run_invariant sid (Chat.start prev fresh userMessage).
Proof.
  intros H N. split; [|discriminate]. cbn.
  rewrite filter_snoc_other by exact N.
  induction (Chat.messages prev) as [|m ms IH]; [reflexivity|].
  cbn [filter]. unfold has_id at 1.
  assert (E : String.eqb (Chat.id m) sid = false)
    by (apply String.eqb_neq, H; now left).
  rewrite E. apply IH. intros m' Hm. apply H. now right.
Qed.

(** X18.  However tool calls, tool outputs, reasoning and [done] events
    come between the pieces of text, the answer is streamed into one
    message: after a run of events the text kept is the pieces in order,
    and the messages with the streaming identifier are that one message
    with that text, or none when no text has come.  (The identifiers
    that [uid()] makes are taken to differ from the streaming one.) *)
Theorem streamed_answer_is_one_message
        (prev : Chat.State) (fresh userMessage : string)
        (events : list (Chat.StreamEvent * string)) :
  (forall m, In m (Chat.messages prev) -> Chat.id m <> sid) ->
  fresh <> sid ->
  (forall ev, In ev events -> snd ev <> sid) ->
  let st := Chat.run JSON_parse sid (Chat.start prev fresh userMessage) events in
  Chat.fullText st = streamed_text events /\
  filter (has_id sid) (Chat.messages st) =
  if has_text events then [answer_message sid (streamed_text events)] else [].
Proof.
  intros Hprev Nf Hev st.
  destruct (run_text events (Chat.start prev fresh userMessage)) as [T A].
  pose proof (run_invariant_kept events _ Hev
                (start_invariant prev fresh userMessage Hprev Nf)) as [F _].
  fold st in T, A, F. cbn in T, A.
  split; [exact T|]. rewrite F, A, T. reflexivity.
Qed.

End ChatRun.

Lemma streamed_answer_is_one_message_witness :
  let events := [(Chat.Text "Hel", "1"); (Chat.Reasoning "plan", "2");
                 (Chat.Text "lo", "3")] in
  let st := Chat.run reference_parse "s"
                     (Chat.start initial_state "0" "hi") events in
  Chat.fullText st = "Hello" /\
  filter (has_id "s") (Chat.messages st) = [answer_message "s" "Hello"].
Proof.
  apply (streamed_answer_is_one_message reference_parse "s" initial_state
           "0" "hi"
           [(Chat.Text "Hel", "1"); (Chat.Reasoning "plan", "2");
            (Chat.Text "lo", "3")]).
  - intros m [].
  - discriminate.
  - intros ev [<- | [<- | [<- | []]]]; discriminate.
Defined.

Lemma update_message_miss (target : string)
      (change : Chat.ChatMessage -> Chat.ChatMessage)
      (prev : list Chat.ChatMessage) :
  (forall m, In m prev -> Chat.id m <> target) ->
  Chat.update_message target change prev = prev.
Proof.
  unfold Chat.update_message.
  induction prev as [|m ms IH]; intros H; [reflexivity|]. cbn [map].
  assert (E : String.eqb (Chat.id m) target = false)
    by (apply String.eqb_neq, H; now left).
  rewrite E, IH; [reflexivity|]. intros m' Hm. apply H. now right.
Qed.

Lemma nonempty_true (s : string) : s <> "" -> Chat.nonempty s = true.
Proof.
  intros N. unfold Chat.nonempty. apply String.eqb_neq in N. now rewrite N.
Qed.

Lemma done_output_from (JSON_parse : string -> outcome json) (sid : string)
      (events : list (Chat.StreamEvent * string)) (st : Chat.State) :
  (let st' := Chat.run JSON_parse sid st events in
   match Chat.gotDoneEvent st', Chat.donePayload st' with
   | true, Some p => Chat.final_output p
   | _, _ => None
   end) =
  fold_left (fun acc ev =>
               match fst ev with
               | Chat.Done (Some p) => Chat.final_output p
               | Chat.Done None => None
               | _ => acc
               end) events
            (match Chat.gotDoneEvent st, Chat.donePayload st with
             | true, Some p => Chat.final_output p
             | _, _ => None
             end).
Proof.
  unfold Chat.run. revert st.
  induction events as [|[event fresh] rest IH]; intros st; [reflexivity|].
  cbn [fold_left fst]. cbv zeta in IH |- *. rewrite IH. f_equal.
  destruct event as [text|name args callId|output callId|summary|payload];
    cbn [Chat.handle]; reflexivity.
Qed.

Lemma answer_of_run (JSON_parse : string -> outcome json) (sid : string)
      (prev : Chat.State) (fresh userMessage : string)
      (events : list (Chat.StreamEvent * string)) :
  Chat.answer (Chat.run JSON_parse sid (Chat.start prev fresh userMessage)
                        events) = shown_text events.
Proof.
  pose proof (done_output_from JSON_parse sid events
                (Chat.start prev fresh userMessage)) as D.
  destruct (run_text JSON_parse sid events (Chat.start prev fresh userMessage))
    as [T _].
  cbv zeta in D. cbn [Chat.start Chat.gotDoneEvent Chat.donePayload] in D.
  cbn [Chat.start Chat.fullText] in T. cbn [append] in T.
  fold (done_output events) in D.
  unfold shown_text, final_text, Chat.answer. rewrite <- D, T.
  set (st := Chat.run _ _ _ _).
  destruct (Chat.gotDoneEvent st); [|reflexivity].
  destruct (Chat.donePayload st) as [p|]; reflexivity.
Qed.

Lemma filter_update_rest (sid : string)
      (change : Chat.ChatMessage -> Chat.ChatMessage)
      (prev : list Chat.ChatMessage) :
  (forall m, Chat.id (change m) = Chat.id m) ->
  filter (fun m => negb (has_id sid m)) (Chat.update_message sid change prev) =
  filter (fun m => negb (has_id sid m)) prev.
Proof.
  intros Hid. unfold Chat.update_message, has_id.
  induction prev as [|m ms IH]; [reflexivity|]. cbn [map filter].
  destruct (String.eqb (Chat.id m) sid) eqn:E.
  - rewrite Hid, E. exact IH.
  - rewrite E. cbn [negb]. now rewrite IH.
Qed.

Section ChatSteps.

Variable JSON_parse : string -> outcome json.
Variable sid : string.

(** X19.  A tool call that carries a call id and the output that
    carries the same id make one message: the output is written into
    the message of the call, which is then done, and no message is
    added for it. *)
Theorem tool_output_completes_call
        (st : Chat.State) (fresh name args cid fresh' output : string) :
  cid <> "" -> fresh <> "" ->
  (forall m, In m (Chat.messages st) -> Chat.id m <> fresh) ->
  Chat.messages
    (Chat.onToolOutput JSON_parse
       (Chat.onToolCall st fresh name args (Some cid))
       fresh' output (Some cid)) =
  (Chat.messages st
     ++ [Chat.mkMessage fresh Chat.tool "" (Some name) (Some cid) (Some args)
                        (Some output) (Some Chat.done)])%list.
Proof.
  intros Nc Nf Hnew.
  unfold Chat.onToolOutput, Chat.onToolCall, Chat.lookup_call, Chat.map_set.
  cbn [Chat.messages Chat.toolMessageIdsByCallId Chat.toolNamesByCallId].
  rewrite (nonempty_true cid Nc), String.eqb_refl, (nonempty_true fresh Nf).
  unfold Chat.update_message. rewrite map_app. cbn [map Chat.id].
  rewrite String.eqb_refl. f_equal.
  apply (update_message_miss fresh _ (Chat.messages st) Hnew).
Qed.

(** X20.  A tool call without a call id is never completed: the output
    that follows without a call id is shown as a message of its own,
    named [tool_output], the message of the call stays running, and the
    diff that the editor shows is left as it was. *)
Theorem tool_output_without_call_id
        (st : Chat.State) (fresh name args fresh' output : string)
        (callId callId' : option string) :
  no_call_id callId = true -> no_call_id callId' = true ->
  let st' := Chat.onToolOutput JSON_parse
               (Chat.onToolCall st fresh name args callId)
               fresh' output callId' in
  Chat.messages st' =
  (Chat.messages st
     ++ [Chat.mkMessage fresh Chat.tool "" (Some name) callId (Some args)
                        None (Some Chat.running);
         Chat.mkMessage fresh' Chat.tool "" (Some "tool_output") callId' None
                        (Some output) (Some Chat.done)])%list /\
  Chat.activeDiff st' = Chat.activeDiff st /\
  Chat.lastDiff st' = Chat.lastDiff st /\
  Chat.lastDiffByPath st' = Chat.lastDiffByPath st /\
  Chat.selectedFile st' = Chat.selectedFile st.
Proof.
  intros _ H'. cbv zeta.
  assert (L : forall m, Chat.lookup_call m callId' = None).
  { intros m. unfold Chat.lookup_call. destruct callId' as [c|]; [|reflexivity].
    cbn in H'. apply negb_true_iff in H'. now rewrite H'. }
  unfold Chat.onToolOutput. rewrite !L.
  cbn [Chat.messages Chat.activeDiff Chat.lastDiff Chat.lastDiffByPath
       Chat.selectedFile Chat.onToolCall].
  rewrite <- app_assoc. cbn [app]. repeat split; reflexivity.
Qed.

(** X21.  The output of a tool changes the diff that the editor shows
    only when the call of its id was a call of [apply_patch] and the
    guard [isDiffData] accepts the output; the diff shown, the last
    diff and the selected file are then those of the output, and the
    file selected is a string.  In every other case the four are left
    as they were. *)
Theorem apply_patch_output_opens_diff
        (st : Chat.State) (fresh output : string) (callId : option string) :
  let st' := Chat.onToolOutput JSON_parse st fresh output callId in
  (forall v,
      Chat.lookup_call (Chat.toolNamesByCallId st) callId = Some "apply_patch" ->
      isDiffData JSON_parse output = Ok (Some v) ->
      Chat.activeDiff st' = Some (Chat.diff_of v) /\
      Chat.lastDiff st' = Some (Chat.diff_of v) /\
      Chat.lastDiffByPath st' =
      (Chat.filePath (Chat.diff_of v), Chat.diff_of v)
        :: Chat.lastDiffByPath st /\
      Chat.selectedFile st' = Chat.filePath (Chat.diff_of v) /\
      exists s, Chat.selectedFile st' = Some (JString s)) /\
  (Chat.lookup_call (Chat.toolNamesByCallId st) callId <> Some "apply_patch"
   \/ isDiffData JSON_parse output = Ok None ->
   Chat.activeDiff st' = Chat.activeDiff st /\
   Chat.lastDiff st' = Chat.lastDiff st /\
   Chat.lastDiffByPath st' = Chat.lastDiffByPath st /\
   Chat.selectedFile st' = Chat.selectedFile st).
Proof.
  cbv zeta. split.
  - intros v L A. unfold Chat.onToolOutput. rewrite L, A.
    cbn [String.eqb Ascii.eqb Bool.eqb Chat.activeDiff Chat.lastDiff
         Chat.lastDiffByPath Chat.selectedFile].
    repeat split; try reflexivity.
    rewrite isDiffData_spec in A.
    destruct (JSON_parse output) as [parsed|e]; [|discriminate].
    destruct (checked_result parsed) eqn:C; [|discriminate].
    injection A as ->. unfold checked_result in C.
    apply andb_true_iff in C. destruct C as [C _].
    apply andb_true_iff in C. destruct C as [_ C].
    unfold has_string_field in C. unfold Chat.diff_of. cbn [Chat.filePath].
    destruct (get_prop v "file_path") as [[[]|]|]; try discriminate.
    eexists; reflexivity.
  - intros H. unfold Chat.onToolOutput.
    destruct (Chat.lookup_call (Chat.toolNamesByCallId st) callId) as [n|];
      [|repeat split; reflexivity].
    destruct (String.eqb n "apply_patch") eqn:E;
      [|repeat split; reflexivity].
    apply String.eqb_eq in E. subst n.
    destruct H as [H|H]; [congruence|]. rewrite H.
    repeat split; reflexivity.
Qed.

(** X22.  What [sendMessage] leaves in the chat.  When its guard
    blocks the call (no session, a stream under way, or an input of
    blank space only), the page stays as it is.  When the stream is read
    to its end, the text shown for the answer is never empty: the
    [final_output] of the last [done] event when it has one that is not
    empty, the streamed text otherwise, and [[No response]] when that is
    empty too; and it is shown once: in the message of the streamed
    answer when text has come, with no message added, and in one message
    added at the end otherwise.  When [fetch] fails or a read throws, no
    final answer is written: [[Error: Connection failed]] is added
    behind the messages so far, and the message of the streamed answer
    keeps the text that has come.  (The identifiers that [uid()] makes
    are taken to differ from the streaming one.) *)
Theorem final_answer_shown_once
        (p : Chat.Page) (fresh last : string) (net : Chat.Connection) :
  (forall m, In m (Chat.messages (Chat.chat p)) -> Chat.id m <> sid) ->
  fresh <> sid -> last <> sid ->
  (forall ev, In ev (events_of net) -> snd ev <> sid) ->
  let p' := Chat.sendMessage JSON_parse sid p fresh net last in
  let st := Chat.run JSON_parse sid
                     (Chat.start (Chat.chat p) fresh (trim (Chat.input p)))
                     (events_of net) in
  (Chat.blocked p = true -> p' = p) /\
  (Chat.blocked p = false ->
   match net with
   | Chat.streamed events Chat.complete =>
       shown_text events <> "" /\
       (has_text events = true ->
        filter (has_id sid) (Chat.messages (Chat.chat p')) =
        [answer_message sid (shown_text events)] /\
        filter (fun m => negb (has_id sid m)) (Chat.messages (Chat.chat p')) =
        filter (fun m => negb (has_id sid m)) (Chat.messages st)) /\
       (has_text events = false ->
        Chat.messages (Chat.chat p') =
        (Chat.messages st ++ [answer_message last (shown_text events)])%list)
   | _ =>
       Chat.messages (Chat.chat p') =
       (Chat.messages st
          ++ [answer_message last "[Error: Connection failed]"])%list /\
       filter (has_id sid) (Chat.messages (Chat.chat p')) =
       if has_text (events_of net)
       then [answer_message sid (streamed_text (events_of net))] else []
   end).
Proof.
  intros Hprev Nf Nl Hev. cbv zeta. unfold Chat.sendMessage.
  split; intros B; rewrite B; [reflexivity|]. cbn [Chat.chat].
  set (entered := Chat.start (Chat.chat p) fresh (trim (Chat.input p))).
  assert (Facts : forall events,
             (forall ev, In ev events -> snd ev <> sid) ->
             let st := Chat.run JSON_parse sid entered events in
             Chat.fullText st = streamed_text events /\
             Chat.hasAddedStreamingMessage st = has_text events /\
             filter (has_id sid) (Chat.messages st) =
             (if has_text events
              then [answer_message sid (streamed_text events)] else []) /\
             Chat.answer st = shown_text events).
  { intros events He st.
    destruct (run_text JSON_parse sid events entered) as [T A].
    pose proof (run_invariant_kept JSON_parse sid events _ He
                  (start_invariant sid (Chat.chat p) fresh
                                   (trim (Chat.input p)) Hprev Nf)) as [F _].
    fold entered in F. fold st in T, A, F.
    cbn [entered Chat.start Chat.hasAddedStreamingMessage Chat.fullText orb
         append] in T, A.
    repeat split; [exact T|exact A|now rewrite F, A, T|].
    apply answer_of_run. }
  assert (Broken : forall events,
             (forall ev, In ev events -> snd ev <> sid) ->
             let st := Chat.run JSON_parse sid entered events in
             Chat.messages (Chat.failed st last) =
             (Chat.messages st
                ++ [answer_message last "[Error: Connection failed]"])%list /\
             filter (has_id sid) (Chat.messages (Chat.failed st last)) =
             if has_text events
             then [answer_message sid (streamed_text events)] else []).
  { intros events He st. destruct (Facts events He) as (_ & _ & F & _).
    fold st in F. split; [reflexivity|].
    unfold Chat.failed, Chat.setMessages. cbn [Chat.messages].
    rewrite filter_snoc_other by exact Nl. exact F. }
  destruct net as [|events [|]]; cbn [events_of] in *.
  - apply (Broken [] Hev).
  - destruct (Facts events Hev) as (_ & A & F & W).
    set (st := Chat.run JSON_parse sid entered events) in *.
    split; [|split].
    + unfold shown_text.
      destruct (Chat.nonempty (final_text events)) eqn:E; [|discriminate].
      unfold Chat.nonempty in E. apply negb_true_iff, String.eqb_neq in E.
      exact E.
    + intros H. unfold Chat.finish, Chat.setMessages.
      cbn [Chat.messages]. rewrite A, H, W. split.
      * rewrite filter_update_same by reflexivity. rewrite F, H. reflexivity.
      * apply filter_update_rest. reflexivity.
    + intros H. unfold Chat.finish, Chat.setMessages.
      cbn [Chat.messages]. rewrite A, H, W. reflexivity.
  - apply (Broken events Hev).
Qed.

End ChatSteps.

Lemma tool_output_completes_call_witness :
  Chat.messages
    (Chat.onToolOutput reference_parse
       (Chat.onToolCall initial_state "m1" "read_file" "{}" (Some "call_1"))
       "m2" "done" (Some "call_1")) =
  [Chat.mkMessage "m1" Chat.tool "" (Some "read_file") (Some "call_1")
                  (Some "{}") (Some "done") (Some Chat.done)].
Proof.
  apply (tool_output_completes_call reference_parse initial_state
           "m1" "read_file" "{}" "call_1" "m2" "done").
  - discriminate.
  - discriminate.
  - intros m [].
Defined.

Lemma tool_output_without_call_id_witness :
  let st' := Chat.onToolOutput reference_parse
               (Chat.onToolCall initial_state "m1" "apply_patch" "{}" None)
               "m2" "out" None in
  Chat.messages st' =
  [Chat.mkMessage "m1" Chat.tool "" (Some "apply_patch") None (Some "{}")
                  None (Some Chat.running);
   Chat.mkMessage "m2" Chat.tool "" (Some "tool_output") None None
                  (Some "out") (Some Chat.done)] /\
  Chat.activeDiff st' = None /\
  Chat.lastDiff st' = None /\
  Chat.lastDiffByPath st' = [] /\
  Chat.selectedFile st' = None.
Proof.
  apply (tool_output_without_call_id reference_parse initial_state
           "m1" "apply_patch" "{}" "m2" "out" None None);
    reflexivity.
Defined.

Lemma final_answer_shown_once_witness :
  let events := [(Chat.Text "Hel", "1"); (Chat.Text "lo", "2");
                 (Chat.Done (Some (Chat.mkDonePayload (Some "Hello!") None)),
                  "3")] in
  let p := Chat.mkPage (Some "session") false " hi " initial_state in
  filter (has_id "s")
         (Chat.messages
            (Chat.chat (Chat.sendMessage reference_parse "s" p "0"
                                         (Chat.streamed events Chat.complete)
                                         "4"))) =
  [answer_message "s" "Hello!"] /\
  filter (has_id "s")
         (Chat.messages
            (Chat.chat (Chat.sendMessage reference_parse "s" p "0"
                                         (Chat.streamed events Chat.broken)
                                         "4"))) =
  [answer_message "s" "Hello"].
Proof.
  cbv zeta. split.
  - refine (proj1 (proj1 (proj2 (proj2
      (final_answer_shown_once reference_parse "s"
         (Chat.mkPage (Some "session") false " hi " initial_state) "0" "4"
         (Chat.streamed
            [(Chat.Text "Hel", "1"); (Chat.Text "lo", "2");
             (Chat.Done (Some (Chat.mkDonePayload (Some "Hello!") None)),
              "3")] Chat.complete) _ _ _ _) eq_refl)) eq_refl)).
    + intros m [].
    + discriminate.
    + discriminate.
    + intros ev [<- | [<- | [<- | []]]]; discriminate.
  - refine (proj2 (proj2
      (final_answer_shown_once reference_parse "s"
         (Chat.mkPage (Some "session") false " hi " initial_state) "0" "4"
         (Chat.streamed
            [(Chat.Text "Hel", "1"); (Chat.Text "lo", "2");
             (Chat.Done (Some (Chat.mkDonePayload (Some "Hello!") None)),
              "3")] Chat.broken) _ _ _ _) eq_refl)).
    + intros m [].
    + discriminate.
    + discriminate.
    + intros ev [<- | [<- | [<- | []]]]; discriminate.
Defined.

Lemma apply_patch_output_opens_diff_witness :
  let output :=
    dquote "{'message':'ok','operation_type':'update_file','file_path':'main.tf','diff_lines':[]}" in
  let st := Chat.onToolCall initial_state "m1" "apply_patch" "{}"
                            (Some "call_1") in
  let st' := Chat.onToolOutput reference_parse st "m2" output
                               (Some "call_1") in
  exists v,
    isDiffData reference_parse output = Ok (Some v) /\
    Chat.activeDiff st' = Some (Chat.diff_of v) /\
    Chat.lastDiff st' = Some (Chat.diff_of v) /\
    Chat.lastDiffByPath st' =
    (Chat.filePath (Chat.diff_of v), Chat.diff_of v)
      :: Chat.lastDiffByPath st /\
    Chat.selectedFile st' = Chat.filePath (Chat.diff_of v) /\
    exists s, Chat.selectedFile st' = Some (JString s).
Proof.
  cbv zeta.
  assert (A : { v | isDiffData reference_parse
                      (dquote "{'message':'ok','operation_type':'update_file','file_path':'main.tf','diff_lines':[]}")
                    = Ok (Some v) })
    by (eexists; vm_compute; reflexivity).
  destruct A as [v A]. exists v. split; [exact A|].
  apply (proj1 (apply_patch_output_opens_diff reference_parse
                  (Chat.onToolCall initial_state "m1" "apply_patch" "{}"
                                   (Some "call_1"))
                  "m2" _ (Some "call_1")) v eq_refl A).
Defined.
